(** * mbytes: a seekable in-memory byte buffer

    A shallow embedding of [bytes.go] (package [mbytes]) and of the two
    functions of Go's [encoding/binary] it calls, followed by the
    properties of the buffer: cursor arithmetic, the overlap/append
    write, positional reads and the unsigned varint codec.

    Conventions of the embedding
    - Go's [int] and [int64] are 64 bits wide (the gc compiler on a
      64-bit platform); they are integers of [Z] and every addition and
      subtraction of the source is followed by [wrap].
    - [[]byte] is [list byte]; [len] is the length as an integer.
    - A method with receiver [m *ByteBuffer] takes the buffer and returns
      the buffer it leaves behind together with its Go results.  A slice
      the method writes to (the [p] of [Read]) is returned as well.
    - A Go run-time panic (slice bounds out of range, index out of
      range, a slice longer than the largest [int]) is [None]. *)

From Stdlib Require Import ZArith Zdiv List Lia Bool.
From Stdlib Require Import Strings.Byte.
Import ListNotations.
Local Open Scope Z_scope.

(** ** Go integers, slices and run-time checks *)

Module GoInt.

Definition minInt : Z := - 2 ^ 63.
Definition maxInt : Z := 2 ^ 63 - 1.

(** Two's complement reduction of a mathematical integer to [int]. *)
Definition wrap (z : Z) : Z := (z + 2 ^ 63) mod 2 ^ 64 - 2 ^ 63.

(** Reduction to [uint64]. *)
Definition wrapU64 (z : Z) : Z := z mod 2 ^ 64.

Definition fits (z : Z) : Prop := minInt <= z <= maxInt.

(** [int(off)] for [off : int64], and [int64(pos)] for [pos : int]. *)
Definition int_of_int64 (z : Z) : Z := wrap z.
Definition int64_of_int (z : Z) : Z := wrap z.

End GoInt.

Export GoInt.

Notation "x <- e ;; k" :=
  (match e with Some x => k | None => None end)
  (at level 61, e at next level, right associativity).

Section Slices.

Context {A : Type}.

Definition len (l : list A) : Z := Z.of_nat (length l).

(** [l[i:]]: panics unless [0 <= i <= len(l)]. *)
Definition slice_from (l : list A) (i : Z) : option (list A) :=
  if (0 <=? i) && (i <=? len l) then Some (skipn (Z.to_nat i) l) else None.

(** [l[:j]]: panics unless [0 <= j <= cap(l)]; the capacity of the
    slices met here is their length. *)
Definition slice_to (l : list A) (j : Z) : option (list A) :=
  if (0 <=? j) && (j <=? len l) then Some (firstn (Z.to_nat j) l) else None.

(** The built-in [copy(dst, src)]: the contents of [dst] afterwards.
    It copies [min(len(dst), len(src))] elements. *)
Definition copy (dst src : list A) : list A :=
  let k := Nat.min (length dst) (length src) in
  firstn k src ++ skipn k dst.

(** The built-in [append(l, more...)]: no slice is longer than the
    largest [int]; growing past it panics. *)
Definition append (l more : list A) : option (list A) :=
  if len l + len more <=? maxInt then Some (l ++ more) else None.

(** [l[i] = v]: panics unless [0 <= i < len(l)]. *)
Definition store (l : list A) (i : Z) (v : A) : option (list A) :=
  if (0 <=? i) && (i <? len l)
  then Some (firstn (Z.to_nat i) l ++ v :: skipn (Z.to_nat (i + 1)) l)
  else None.

(** [l[i]]: panics unless [0 <= i < len(l)]. *)
Definition index (l : list A) (i : Z) : option A :=
  if 0 <=? i then nth_error l (Z.to_nat i) else None.

End Slices.

(** [make([]byte, n)] for [n : int] or [uint].  The bound is the one of
    the language, a length is an [int]; the run time refuses a request
    earlier, at an allocation limit that depends on the platform.
    Below, [make] is called with 1, with [MaxVarintLen64] and with the
    length of a slice that exists; of a size the caller chooses, as in
    [Reset], nothing is said on whether the call returns. *)
Definition make (n : Z) : option (list byte) :=
  if (0 <=? n) && (n <=? maxInt) then Some (repeat x00 (Z.to_nat n)) else None.

Definition Z_of_byte (b : byte) : Z := Z.of_N (Byte.to_N b).

(** The conversion [byte(x)] keeps the low eight bits. *)
Definition byte_of_Z (z : Z) : byte :=
  match Byte.of_N (Z.to_N (z mod 256)) with
  | Some b => b
  | None => x00
  end.

(** ** Errors *)

Inductive error : Set :=
| ErrWhenceUnknown
| ErrSeekNegative
| ErrSeekOverflow
| ErrOffsetNegative
| ErrOffsetOverflow
| ErrByteRead
| EOF                 (* io.EOF *)
| ErrUnexpectedEOF    (* io.ErrUnexpectedEOF *)
| errOverflow.        (* encoding/binary: varint overflows a 64-bit integer *)

Definition error_eqb (a b : error) : bool :=
  match a, b with
  | ErrWhenceUnknown, ErrWhenceUnknown
  | ErrSeekNegative, ErrSeekNegative
  | ErrSeekOverflow, ErrSeekOverflow
  | ErrOffsetNegative, ErrOffsetNegative
  | ErrOffsetOverflow, ErrOffsetOverflow
  | ErrByteRead, ErrByteRead
  | EOF, EOF
  | ErrUnexpectedEOF, ErrUnexpectedEOF
  | errOverflow, errOverflow => true
  | _, _ => false
  end.

(** A Go [error] value is [option error]; [nil] is [None]. *)

(** ** encoding/binary *)

Module binary.

Definition MaxVarintLen64 : Z := 10.

(** [io.ByteReader]. *)
Class ByteReader (R : Type) : Type :=
  readByte : R -> option (R * byte * option error).

(** [PutUvarint(buf, x)]:
<<
    i := 0
    for x >= 0x80 { buf[i] = byte(x) | 0x80; x >>= 7; i++ }
    buf[i] = byte(x)
    return i + 1
>>
    Every turn of the loop stores at the next index, so the loop ends
    or panics within [len(buf) + 1] stores: [fuel] counts them. *)
Fixpoint PutUvarint_loop (fuel : nat) (buf : list byte) (x i : Z)
  : option (list byte * Z) :=
  match fuel with
  | O => None
  | S fuel' =>
      if 128 <=? x then
        buf' <- store buf i (byte_of_Z (Z.lor (Z_of_byte (byte_of_Z x)) 128)) ;;
        PutUvarint_loop fuel' buf' (Z.shiftr x 7) (i + 1)
      else
        buf' <- store buf i (byte_of_Z x) ;;
        Some (buf', i + 1)
  end.

Definition PutUvarint (buf : list byte) (x : Z) : option (list byte * Z) :=
  PutUvarint_loop (S (length buf)) buf x 0.

(** [ReadUvarint(r)]:
<<
    var x uint64
    var s uint
    for i := 0; i < MaxVarintLen64; i++ {
      b, err := r.ReadByte()
      if err != nil {
        if i > 0 && err == io.EOF { err = io.ErrUnexpectedEOF }
        return x, err
      }
      if b < 0x80 {
        if i == MaxVarintLen64-1 && b > 1 { return x, errOverflow }
        return x | uint64(b)<<s, nil
      }
      x |= uint64(b&0x7f) << s
      s += 7
    }
    return x, errOverflow
>>
    [fuel] is the number of turns left, [MaxVarintLen64 - i]. *)
Fixpoint ReadUvarint_loop {R} `{ByteReader R}
  (fuel : nat) (i x s : Z) (r : R) : option (R * Z * option error) :=
  match fuel with
  | O => Some (r, x, Some errOverflow)
  | S fuel' =>
      rb <- readByte r ;;
      let '(r', b, err) := rb in
      match err with
      | Some e =>
          Some (r', x,
                Some (if (0 <? i) && error_eqb e EOF then ErrUnexpectedEOF else e))
      | None =>
          let b := Z_of_byte b in
          if b <? 128 then
            if (i =? MaxVarintLen64 - 1) && (1 <? b)
            then Some (r', x, Some errOverflow)
            else Some (r', Z.lor x (wrapU64 (Z.shiftl b s)), None)
          else
            ReadUvarint_loop fuel' (i + 1)
              (Z.lor x (wrapU64 (Z.shiftl (Z.land b 127) s))) (s + 7) r'
      end
  end.

Definition ReadUvarint {R} `{ByteReader R} (r : R)
  : option (R * Z * option error) :=
  ReadUvarint_loop (Z.to_nat MaxVarintLen64) 0 0 0 r.

End binary.

(** ** The buffer *)

Record ByteBuffer : Set := mkByteBuffer {
  buff : list byte;
  pos : Z
}.

Definition set_pos (m : ByteBuffer) (p : Z) : ByteBuffer :=
  {| buff := buff m; pos := p |}.

Definition set_buff (m : ByteBuffer) (b : list byte) : ByteBuffer :=
  {| buff := b; pos := pos m |}.

(** Modelled from the spec: [min_int] is called by [readFromPos] and is
    declared in no source file at hand; the spec has
    [n = min(available, length(dst))]. *)
Definition min_int (a b : Z) : Z := Z.min a b.

(** [io.SeekStart], [io.SeekCurrent], [io.SeekEnd]. *)
Definition SeekStart : Z := 0.
Definition SeekCurrent : Z := 1.
Definition SeekEnd : Z := 2.

(** [Reset(size uint)]. *)
Definition Reset (m : ByteBuffer) (size : Z) : option ByteBuffer :=
  b <- (if 0 <? size then make size else Some []) ;;
  Some (set_pos (set_buff m b) 0).

Definition NewByteBuffer (size : Z) : option ByteBuffer :=
  Reset {| buff := []; pos := 0 |} size.

Definition Clear (m : ByteBuffer) : option ByteBuffer := Reset m 0.

Definition Empty (m : ByteBuffer) : bool := len (buff m) =? 0.

Definition Size (m : ByteBuffer) : Z := len (buff m).

Definition Pos (m : ByteBuffer) : Z := pos m.

Definition Clone (m : ByteBuffer) : option ByteBuffer :=
  r <- NewByteBuffer (Size m) ;;
  let r := set_pos r 0 in
  Some (set_buff r (copy (buff r) (buff m))).

Definition Bytes (m : ByteBuffer) : option (list byte) :=
  r <- make (len (buff m)) ;;
  Some (copy r (buff m)).

Definition posOverflow (m : ByteBuffer) (p : Z) : bool := len (buff m) <=? p.

(** The local [pos] of [Seek] after the [switch]; [None] in the
    [default] case. *)
Definition seekTarget (m : ByteBuffer) (offset whence : Z) : option Z :=
  let pos0 := int_of_int64 offset in
  if whence =? SeekStart then Some pos0
  else if whence =? SeekCurrent then Some (wrap (pos0 + pos m))
  else if whence =? SeekEnd then Some (wrap (pos0 + len (buff m)))
  else None.

Definition Seek (m : ByteBuffer) (offset whence : Z)
  : ByteBuffer * Z * option error :=
  match seekTarget m offset whence with
  | None => (m, -1, Some ErrWhenceUnknown)
  | Some p =>
      if p <? 0 then (m, -1, Some ErrSeekNegative)
      else if posOverflow m p then (m, -1, Some ErrSeekOverflow)
      else (set_pos m p, int64_of_int p, None)
  end.

Definition SeekFromStart (m : ByteBuffer) (offset : Z) := Seek m offset SeekStart.
Definition SeekFromCurrent (m : ByteBuffer) (offset : Z) := Seek m offset SeekCurrent.
Definition SeekFromEnd (m : ByteBuffer) (offset : Z) := Seek m offset SeekEnd.
Definition SeekToStart (m : ByteBuffer) := Seek m 0 SeekStart.
Definition SeekToEnd (m : ByteBuffer) := Seek m 0 SeekEnd.

(** [readFromPos(p, pos, incPos)]: the buffer and [p] afterwards, [n]
    and [err]. *)
Definition readFromPos (m : ByteBuffer) (p : list byte) (ps : Z) (incPos : bool)
  : option (ByteBuffer * list byte * Z * option error) :=
  let l := len p in
  let avail := wrap (len (buff m) - ps) in
  if 0 <? avail then
    let n := min_int avail l in
    src <- slice_from (buff m) ps ;;
    let p' := copy p src in
    let m' := if incPos then set_pos m (wrap (pos m + n)) else m in
    Some (m', p', n, if n <? l then Some EOF else None)
  else Some (m, p, -1, Some EOF).

Definition Read (m : ByteBuffer) (p : list byte) :=
  readFromPos m p (pos m) true.

Definition ReadAt (m : ByteBuffer) (p : list byte) (off : Z)
  : option (ByteBuffer * list byte * Z * option error) :=
  let ps := int_of_int64 off in
  if ps <? 0 then Some (m, p, -1, Some ErrOffsetNegative)
  else if posOverflow m ps then Some (m, p, -1, Some ErrOffsetOverflow)
  else readFromPos m p ps false.

(** [writeFromPos(p, pos)]: the buffer afterwards, [appended],
    [written] and [err]. *)
Definition writeFromPos (m : ByteBuffer) (p : list byte) (ps : Z)
  : option (ByteBuffer * Z * Z * option error) :=
  let l := len p in
  let noverlap := wrap (len (buff m) - ps) in
  let noverlap := if l <? noverlap then l else noverlap in
  let nappend := wrap (l - noverlap) in
  m1 <- (if 0 <? noverlap then
           dst <- slice_from (buff m) ps ;;
           src <- slice_to p noverlap ;;
           Some (set_buff m (firstn (Z.to_nat ps) (buff m) ++ copy dst src))
         else Some m) ;;
  m2 <- (if 0 <? nappend then
           src <- slice_from p noverlap ;;
           b <- append (buff m1) src ;;
           Some (set_buff m1 b)
         else Some m1) ;;
  Some (m2, nappend, l, None).

Definition Write (m : ByteBuffer) (p : list byte)
  : option (ByteBuffer * Z * option error) :=
  r <- writeFromPos m p (pos m) ;;
  let '(m', appended, written, err) := r in
  match err with
  | Some e => Some (m', -1, Some e)
  | None => Some (set_pos m' (wrap (pos m' + appended)), written, err)
  end.

Definition WriteAt (m : ByteBuffer) (p : list byte) (off : Z)
  : option (ByteBuffer * Z * option error) :=
  if off <? 0 then Some (m, -1, Some ErrOffsetNegative)
  else if posOverflow m (int_of_int64 off) then Some (m, -1, Some ErrOffsetOverflow)
  else
    r <- writeFromPos m p (int_of_int64 off) ;;
    let '(m', appended, written, err) := r in
    match err with
    | Some e => Some (m', -1, Some e)
    | None => Some (set_pos m' (wrap (pos m' + appended)), written, err)
    end.

Definition ReadByte (m : ByteBuffer) : option (ByteBuffer * byte * option error) :=
  p <- make 1 ;;
  r <- Read m p ;;
  let '(m', p', n, err) := r in
  match err with
  | Some e => Some (m', x00, Some e)
  | None =>
      if negb (n =? 1) then Some (m', x00, Some ErrByteRead)
      else c <- index p' 0 ;; Some (m', c, None)
  end.

Definition WriteByte (m : ByteBuffer) (c : byte) : option (ByteBuffer * option error) :=
  b <- append (buff m) [c] ;;
  let m1 := set_buff m b in
  Some (set_pos m1 (len (buff m1)), None).

Definition ByteAt (m : ByteBuffer) (ps : Z) : option (ByteBuffer * byte * option error) :=
  p <- make 1 ;;
  r <- ReadAt m p (int64_of_int ps) ;;
  let '(m', p', n, err) := r in
  match err with
  | Some e => Some (m', x00, Some e)
  | None =>
      if negb (n =? 1) then Some (m', x00, Some ErrByteRead)
      else c <- index p' 0 ;; Some (m', c, None)
  end.

#[export] Instance ByteBuffer_ByteReader : binary.ByteReader ByteBuffer := ReadByte.

Definition WriteUInt64Var (m : ByteBuffer) (x : Z)
  : option (ByteBuffer * Z * option error) :=
  b <- make binary.MaxVarintLen64 ;;
  r <- binary.PutUvarint b x ;;
  let '(b', n) := r in
  p <- slice_to b' n ;;
  Write m p.

Definition ReadUInt64Var (m : ByteBuffer) : option (ByteBuffer * Z * option error) :=
  binary.ReadUvarint m.

(** ** The test of the varint codec, from the test file *)

(** [1, 2, 4, ..., 2^62]: the [validation_list] of
    [TestByteBufferUInt64Var] ([vtimes = 63], [v *= 2]). *)
Definition validation_list : list Z :=
  map (fun i => 2 ^ Z.of_nat i) (seq 0 63).

(** The first loop of the test: every value is written, any error
    stops the test. *)
Fixpoint write_all (m : ByteBuffer) (xs : list Z) : option (ByteBuffer * option error) :=
  match xs with
  | [] => Some (m, None)
  | x :: xs' =>
      r <- WriteUInt64Var m x ;;
      let '(m', _, err) := r in
      match err with
      | Some e => Some (m', Some e)
      | None => write_all m' xs'
      end
  end.

(** The second loop of the test: [n] values are read, any error stops
    the test. *)
Fixpoint read_all (m : ByteBuffer) (n : nat)
  : option (ByteBuffer * list Z * option error) :=
  match n with
  | O => Some (m, [], None)
  | S n' =>
      r <- ReadUInt64Var m ;;
      let '(m', x, err) := r in
      match err with
      | Some e => Some (m', [], Some e)
      | None =>
          rs <- read_all m' n' ;;
          let '(m'', xs, err') := rs in
          Some (m'', x :: xs, err')
      end
  end.

(** ** States and steps of the public interface *)

(** A buffer Go can hold has a slice no longer than the largest
    [int]. *)
Definition representable (m : ByteBuffer) : Prop :=
  len (buff m) <= maxInt.

(** The invariant of the data model. *)
Definition cursor_ok (m : ByteBuffer) : Prop :=
  0 <= pos m <= len (buff m).

Definition well_formed (m : ByteBuffer) : Prop :=
  representable m /\ cursor_ok m.

(** The calls of the public interface that act on a buffer. *)
Inductive call : Set :=
| CReset (size : Z)
| CClear
| CSeek (offset whence : Z)
| CSeekFromStart (offset : Z)
| CSeekFromCurrent (offset : Z)
| CSeekFromEnd (offset : Z)
| CSeekToStart
| CSeekToEnd
| CRead (p : list byte)
| CReadAt (p : list byte) (off : Z)
| CWrite (p : list byte)
| CWriteAt (p : list byte) (off : Z)
| CReadByte
| CWriteByte (c : byte)
| CByteAt (ps : Z)
| CWriteUInt64Var (x : Z)
| CReadUInt64Var.

(** The arguments are values of their Go types. *)
Definition well_typed (c : call) : Prop :=
  match c with
  | CReset size => 0 <= size < 2 ^ 64
  | CSeek offset whence => fits offset /\ fits whence
  | CSeekFromStart offset | CSeekFromCurrent offset | CSeekFromEnd offset => fits offset
  | CRead p | CWrite p => len p <= maxInt
  | CReadAt p off | CWriteAt p off => len p <= maxInt /\ fits off
  | CByteAt ps => fits ps
  | CWriteUInt64Var x => 0 <= x < 2 ^ 64
  | CClear | CSeekToStart | CSeekToEnd | CReadByte | CWriteByte _ | CReadUInt64Var => True
  end.

(** The buffer a call leaves behind; [None] when it panics. *)
Definition after (c : call) (m : ByteBuffer) : option ByteBuffer :=
  match c with
  | CReset size => Reset m size
  | CClear => Clear m
  | CSeek offset whence => Some (fst (fst (Seek m offset whence)))
  | CSeekFromStart offset => Some (fst (fst (SeekFromStart m offset)))
  | CSeekFromCurrent offset => Some (fst (fst (SeekFromCurrent m offset)))
  | CSeekFromEnd offset => Some (fst (fst (SeekFromEnd m offset)))
  | CSeekToStart => Some (fst (fst (SeekToStart m)))
  | CSeekToEnd => Some (fst (fst (SeekToEnd m)))
  | CRead p => r <- Read m p ;; Some (fst (fst (fst r)))
  | CReadAt p off => r <- ReadAt m p off ;; Some (fst (fst (fst r)))
  | CWrite p => r <- Write m p ;; Some (fst (fst r))
  | CWriteAt p off => r <- WriteAt m p off ;; Some (fst (fst r))
  | CReadByte => r <- ReadByte m ;; Some (fst (fst r))
  | CWriteByte c => r <- WriteByte m c ;; Some (fst r)
  | CByteAt ps => r <- ByteAt m ps ;; Some (fst (fst r))
  | CWriteUInt64Var x => r <- WriteUInt64Var m x ;; Some (fst (fst r))
  | CReadUInt64Var => r <- ReadUInt64Var m ;; Some (fst (fst r))
  end.

(** The buffers a client of the package can hold: made by a
    constructor, or left behind by a call on one of them. *)
Inductive reachable : ByteBuffer -> Prop :=
| reach_new size m :
    0 <= size < 2 ^ 64 -> NewByteBuffer size = Some m -> reachable m
| reach_clone m r :
    reachable m -> Clone m = Some r -> reachable r
| reach_call c m m' :
    reachable m -> well_typed c -> after c m = Some m' -> reachable m'.

(** ** The write of the spec

    Section 4.4 of the spec: [overlap = min(length(storage) - pos,
    length(src))], [appended = length(src) - overlap]; [src[:overlap]]
    is copied over [storage[pos : pos+overlap]] and [src[overlap:]] is
    appended.  The result is the storage, [appended] and [total]. *)

Definition spec_overlap (storage src : list byte) (ps : Z) : Z :=
  Z.min (len storage - ps) (len src).

Definition spec_appended (storage src : list byte) (ps : Z) : Z :=
  len src - spec_overlap storage src ps.

Definition spec_storage (storage src : list byte) (ps : Z) : list byte :=
  let overlap := spec_overlap storage src ps in
  firstn (Z.to_nat ps) storage
    ++ firstn (Z.to_nat overlap) src
    ++ skipn (Z.to_nat (ps + overlap)) storage
    ++ skipn (Z.to_nat overlap) src.

(** ** The seek target of the spec

    Section 4.2 of the spec: [Start]: [target = offset]; [Current]:
    [target = cursor + offset]; [End]: [target = length(storage) +
    offset], as mathematical integers. *)
Definition spec_seek_target (m : ByteBuffer) (offset whence : Z) : Z :=
  if whence =? SeekStart then offset
  else if whence =? SeekCurrent then pos m + offset
  else len (buff m) + offset.

(** ** Buffers of the examples *)

(** ["abcdef"], ["abcabcdef"] and ["abcxyf"]. *)
Definition abcdef : list byte := [x61; x62; x63; x64; x65; x66].
Definition abcabcdef : list byte := [x61; x62; x63; x61; x62; x63; x64; x65; x66].
Definition abcxyf : list byte := [x61; x62; x63; x78; x79; x66].

(** ** bytes.Compare and [CmpWith] *)

Module bytes.

(** [Compare(a, b)], the portable implementation of the standard
    library:
<<
      l := len(a)
      if len(b) < l { l = len(b) }
      for i := 0; i < l; i++ {
        c1, c2 := a[i], b[i]
        if c1 < c2 { return -1 }
        if c1 > c2 { return +1 }
      }
      if len(a) < len(b) { return -1 }
      if len(a) > len(b) { return +1 }
      return 0
>>
    [Compare_loop] is the loop over the common length; it is [None]
    when the loop ends without a difference. *)
Fixpoint Compare_loop (a b : list byte) : option Z :=
  match a, b with
  | c1 :: a', c2 :: b' =>
      if Z_of_byte c1 <? Z_of_byte c2 then Some (-1)
      else if Z_of_byte c2 <? Z_of_byte c1 then Some 1
      else Compare_loop a' b'
  | _, _ => None
  end.

Definition Compare (a b : list byte) : Z :=
  match Compare_loop a b with
  | Some r => r
  | None =>
      if len a <? len b then -1
      else if len b <? len a then 1
      else 0
  end.

End bytes.

Definition CmpWith (m other : ByteBuffer) : Z :=
  bytes.Compare (buff m) (buff other).

(** ** The loops of the byte test

    [TestByteBufferReadWriteByte] writes its bytes one by one with
    [WriteByte] and reads them back with [ReadByte]; any error stops
    the loop. *)

Fixpoint write_bytes (m : ByteBuffer) (cs : list byte)
  : option (ByteBuffer * option error) :=
  match cs with
  | [] => Some (m, None)
  | c :: cs' =>
      r <- WriteByte m c ;;
      let '(m', err) := r in
      match err with
      | Some e => Some (m', Some e)
      | None => write_bytes m' cs'
      end
  end.

Fixpoint read_bytes (m : ByteBuffer) (n : nat)
  : option (ByteBuffer * list byte * option error) :=
  match n with
  | O => Some (m, [], None)
  | S n' =>
      r <- ReadByte m ;;
      let '(m', c, err) := r in
      match err with
      | Some e => Some (m', [], Some e)
      | None =>
          rs <- read_bytes m' n' ;;
          let '(m'', cs, err') := rs in
          Some (m'', c :: cs, err')
      end
  end.

(** ** The varint of a value

    The bytes [PutUvarint] stores for [x], at most [n] of them: seven
    bits a byte, least significant group first, the high bit set on
    every byte but the last. *)
Fixpoint uvarint_bytes (n : nat) (x : Z) : list byte :=
  match n with
  | O => []
  | S n' =>
      if 128 <=? x
      then byte_of_Z (Z.lor (Z_of_byte (byte_of_Z x)) 128) :: uvarint_bytes n' (Z.shiftr x 7)
      else [byte_of_Z x]
  end.

(** ** Arithmetic of [int] *)

Lemma wrap_fits z : fits z -> wrap z = z.
Proof.
  unfold fits, minInt, maxInt, wrap. intros H.
  rewrite Z.mod_small; lia.
Qed.

Lemma wrap_range z : fits (wrap z).
Proof.
  unfold fits, minInt, maxInt, wrap.
  pose proof (Z.mod_pos_bound (z + 2 ^ 63) (2 ^ 64) ltac:(lia)). lia.
Qed.

Lemma wrap_wrap z : wrap (wrap z) = wrap z.
Proof. apply wrap_fits, wrap_range. Qed.

Lemma maxInt_pos : 0 < maxInt.
Proof. unfold maxInt. lia. Qed.

Lemma minInt_neg : minInt < 0.
Proof. unfold minInt. lia. Qed.

Lemma minInt_maxInt : minInt = - maxInt - 1.
Proof. reflexivity. Qed.

(** ** Lengths of slices *)

Section SliceFacts.

Context {A : Type}.
Implicit Types l dst src : list A.

Lemma len_nonneg l : 0 <= len l.
Proof. unfold len. lia. Qed.

Lemma len_app l1 l2 : len (l1 ++ l2) = len l1 + len l2.
Proof. unfold len. rewrite length_app. lia. Qed.

Lemma len_nil : len (@nil A) = 0.
Proof. reflexivity. Qed.

Lemma len_firstn l i : 0 <= i <= len l -> len (firstn (Z.to_nat i) l) = i.
Proof. unfold len. intros H. rewrite length_firstn. lia. Qed.

Lemma len_skipn l i : 0 <= i <= len l -> len (skipn (Z.to_nat i) l) = len l - i.
Proof. unfold len. intros H. rewrite length_skipn. lia. Qed.

Lemma len_zero_nil l : len l = 0 -> l = [].
Proof. unfold len. destruct l; simpl; [reflexivity | lia]. Qed.

Lemma skipn_len l i : len l <= i -> skipn (Z.to_nat i) l = [].
Proof. unfold len. intros H. apply skipn_all2. lia. Qed.

Lemma firstn_len l i : len l <= i -> firstn (Z.to_nat i) l = l.
Proof. unfold len. intros H. apply firstn_all2. lia. Qed.

Lemma slice_from_ok l i :
  0 <= i <= len l -> slice_from l i = Some (skipn (Z.to_nat i) l).
Proof.
  intros H. unfold slice_from.
  destruct (Z.leb_spec 0 i); destruct (Z.leb_spec i (len l)); simpl; try lia.
  reflexivity.
Qed.

Lemma slice_to_ok l j :
  0 <= j <= len l -> slice_to l j = Some (firstn (Z.to_nat j) l).
Proof.
  intros H. unfold slice_to.
  destruct (Z.leb_spec 0 j); destruct (Z.leb_spec j (len l)); simpl; try lia.
  reflexivity.
Qed.

Lemma append_ok l more :
  len l + len more <= maxInt -> append l more = Some (l ++ more).
Proof.
  intros H. unfold append. destruct (Z.leb_spec (len l + len more) maxInt); [reflexivity | lia].
Qed.

Lemma append_inv l more r :
  append l more = Some r -> r = l ++ more /\ len l + len more <= maxInt.
Proof.
  unfold append. destruct (Z.leb_spec (len l + len more) maxInt); [| discriminate].
  intros E. inversion E. auto.
Qed.

(** [copy] when the source is no longer than the destination. *)
Lemma copy_short dst src :
  (length src <= length dst)%nat -> copy dst src = src ++ skipn (length src) dst.
Proof.
  intros H. unfold copy. rewrite Nat.min_r by exact H.
  rewrite firstn_all. reflexivity.
Qed.

(** [copy] when the destination is no longer than the source. *)
Lemma copy_long dst src :
  (length dst <= length src)%nat -> copy dst src = firstn (length dst) src.
Proof.
  intros H. unfold copy. rewrite Nat.min_l by exact H.
  rewrite skipn_all. apply app_nil_r.
Qed.

Lemma copy_length dst src : length (copy dst src) = length dst.
Proof.
  unfold copy. rewrite length_app, length_firstn, length_skipn. lia.
Qed.

End SliceFacts.

(** Solves a range side condition on [int] values. *)
Ltac int_range :=
  unfold fits in *;
  pose proof minInt_maxInt; pose proof maxInt_pos;
  repeat match goal with
         | |- context [len ?l] =>
             lazymatch goal with
             | _ : 0 <= len l |- _ => fail
             | _ => pose proof (len_nonneg l)
             end
         end;
  lia.

(** ** The shared write *)

Lemma if_ltb_min (l a : Z) : (if l <? a then l else a) = Z.min a l.
Proof. destruct (Z.ltb_spec l a); lia. Qed.

Lemma spec_overlap_range storage src ps :
  0 <= ps <= len storage ->
  0 <= spec_overlap storage src ps <= len src
  /\ ps + spec_overlap storage src ps <= len storage.
Proof.
  intros H. unfold spec_overlap. pose proof (len_nonneg src). lia.
Qed.

Lemma spec_storage_len storage src ps :
  0 <= ps <= len storage ->
  len (spec_storage storage src ps) = len storage + spec_appended storage src ps.
Proof.
  intros H. unfold spec_storage, spec_appended.
  destruct (spec_overlap_range storage src ps H) as [Ho Hs].
  set (ov := spec_overlap storage src ps) in *.
  rewrite !len_app, !len_firstn, !len_skipn by lia. lia.
Qed.

(** Once its arguments are in range, [writeFromPos] is the write of the
    spec, and it panics exactly when the storage would outgrow [int]. *)
Lemma writeFromPos_eq m p ps :
  len (buff m) <= maxInt -> len p <= maxInt -> 0 <= ps <= len (buff m) ->
  writeFromPos m p ps =
    if ps + len p <=? maxInt
    then Some (set_buff m (spec_storage (buff m) p ps),
               spec_appended (buff m) p ps, len p, None)
    else None.
Proof.
  intros Hb Hp Hps.
  pose proof (len_nonneg p) as Hp0. pose proof maxInt_pos as HM. pose proof minInt_neg as Hm.
  destruct (spec_overlap_range (buff m) p ps Hps) as [Ho Hs].
  unfold writeFromPos, spec_storage, spec_appended.
  rewrite (wrap_fits (len (buff m) - ps)) by (unfold fits; lia).
  rewrite if_ltb_min. fold (spec_overlap (buff m) p ps).
  set (ov := spec_overlap (buff m) p ps) in *.
  rewrite (wrap_fits (len p - ov)) by (unfold fits; lia).
  assert (Hov : (length (firstn (Z.to_nat ov) p) <= length (skipn (Z.to_nat ps) (buff m)))%nat).
  { rewrite length_firstn, length_skipn. unfold len in *. lia. }
  assert (Hlf : length (firstn (Z.to_nat ov) p) = Z.to_nat ov).
  { rewrite length_firstn. unfold len in *. lia. }
  assert (E1 : firstn (Z.to_nat ps) (buff m) ++ copy (skipn (Z.to_nat ps) (buff m)) (firstn (Z.to_nat ov) p)
               = firstn (Z.to_nat ps) (buff m) ++ firstn (Z.to_nat ov) p
                   ++ skipn (Z.to_nat (ps + ov)) (buff m)).
  { rewrite copy_short by exact Hov. rewrite Hlf, skipn_skipn.
    replace (Z.to_nat ov + Z.to_nat ps)%nat with (Z.to_nat (ps + ov)) by lia.
    reflexivity. }
  assert (E0 : ov = 0 ->
               buff m = firstn (Z.to_nat ps) (buff m) ++ firstn (Z.to_nat ov) p
                   ++ skipn (Z.to_nat (ps + ov)) (buff m)).
  { intros ->. rewrite Z.add_0_r. simpl. symmetry. apply firstn_skipn. }
  assert (Hm1 :
    (if 0 <? ov
     then dst <- slice_from (buff m) ps ;; src <- slice_to p ov ;;
          Some (set_buff m (firstn (Z.to_nat ps) (buff m) ++ copy dst src))
     else Some m)
    = Some (set_buff m (firstn (Z.to_nat ps) (buff m) ++ firstn (Z.to_nat ov) p
                          ++ skipn (Z.to_nat (ps + ov)) (buff m)))).
  { destruct (Z.ltb_spec 0 ov).
    - rewrite slice_from_ok, slice_to_ok by lia. rewrite E1. reflexivity.
    - rewrite <- E0 by lia. destruct m; reflexivity. }
  rewrite Hm1. cbv beta iota. clear Hm1 E0 E1.
  destruct (Z.ltb_spec 0 (len p - ov)) as [Ha | Ha].
  - rewrite slice_from_ok by lia.
    assert (Hov' : ov = len (buff m) - ps) by (unfold ov, spec_overlap in *; lia).
    unfold append. simpl buff.
    rewrite !len_app, !len_firstn, !len_skipn by lia.
    match goal with
    | |- context [if ?a <=? maxInt then Some (_ ++ _) else None] =>
        replace a with (ps + len p) by lia
    end.
    destruct (Z.leb_spec (ps + len p) maxInt); [| reflexivity].
    unfold set_buff. simpl. rewrite <- !app_assoc. reflexivity.
  - assert (Hov' : ov = len p) by lia.
    destruct (Z.leb_spec (ps + len p) maxInt); [| lia].
    rewrite (skipn_len p ov) by lia. rewrite !app_nil_r. reflexivity.
Qed.

Lemma spec_storage_fits storage src ps :
  len storage <= maxInt -> 0 <= ps <= len storage -> ps + len src <= maxInt ->
  len (spec_storage storage src ps) <= maxInt.
Proof.
  intros Hb Hps Hs. rewrite spec_storage_len by exact Hps.
  unfold spec_appended, spec_overlap. lia.
Qed.

Lemma spec_appended_nonneg storage src ps : 0 <= spec_appended storage src ps.
Proof. unfold spec_appended, spec_overlap. lia. Qed.

(** ** The shared read *)

Lemma readFromPos_eq m p ps inc :
  len (buff m) <= maxInt -> 0 <= ps <= maxInt ->
  readFromPos m p ps inc =
    if ps <? len (buff m) then
      let n := Z.min (len (buff m) - ps) (len p) in
      Some (if inc then set_pos m (wrap (pos m + n)) else m,
            copy p (skipn (Z.to_nat ps) (buff m)),
            n,
            if n <? len p then Some EOF else None)
    else Some (m, p, -1, Some EOF).
Proof.
  intros Hb Hps.
  unfold readFromPos, min_int.
  rewrite wrap_fits by int_range.
  destruct (Z.ltb_spec 0 (len (buff m) - ps)); destruct (Z.ltb_spec ps (len (buff m))); try lia.
  - rewrite slice_from_ok by lia. reflexivity.
  - reflexivity.
Qed.

(** A positional read or a read that does not advance leaves the
    buffer as it is, whatever its arguments. *)
Lemma readFromPos_frame m p ps m' p' n e :
  readFromPos m p ps false = Some (m', p', n, e) -> m' = m.
Proof.
  unfold readFromPos.
  destruct (0 <? wrap (len (buff m) - ps)).
  - destruct (slice_from (buff m) ps); [| discriminate]. intros E. inversion E. reflexivity.
  - intros E. inversion E. reflexivity.
Qed.

Lemma ReadAt_frame m p off m' p' n e :
  ReadAt m p off = Some (m', p', n, e) -> m' = m.
Proof.
  unfold ReadAt.
  destruct (int_of_int64 off <? 0); [intros E; inversion E; reflexivity |].
  destruct (posOverflow m (int_of_int64 off)); [intros E; inversion E; reflexivity |].
  apply readFromPos_frame.
Qed.

Lemma ReadAt_total m p off :
  len (buff m) <= maxInt -> exists p' n e, ReadAt m p off = Some (m, p', n, e).
Proof.
  intros Hb. unfold ReadAt, posOverflow.
  pose proof (wrap_range off) as Hr. unfold int_of_int64. unfold fits in Hr.
  destruct (Z.ltb_spec (wrap off) 0); [eauto |].
  destruct (Z.leb_spec (len (buff m)) (wrap off)); [eauto |].
  rewrite readFromPos_eq by lia.
  destruct (Z.ltb_spec (wrap off) (len (buff m))); [| lia].
  cbv zeta. eauto.
Qed.

Lemma make_1 : make 1 = Some [x00].
Proof. reflexivity. Qed.

Lemma ByteAt_frame m ps m' c e :
  ByteAt m ps = Some (m', c, e) -> m' = m.
Proof.
  unfold ByteAt. rewrite make_1.
  destruct (ReadAt m [x00] (int64_of_int ps)) as [[[[m1 p1] n1] e1] |] eqn:E; [| discriminate].
  apply ReadAt_frame in E. subst m1.
  destruct e1.
  - intros H. inversion H. reflexivity.
  - destruct (negb (n1 =? 1)).
    + intros H. inversion H. reflexivity.
    + destruct (index p1 0); [| discriminate]. intros H. inversion H. reflexivity.
Qed.

(** A one-byte read has two outcomes: a byte without an error, or
    [io.EOF] with the buffer untouched. *)
Lemma ReadByte_cases m m' c e :
  ReadByte m = Some (m', c, e) -> e = None \/ (m' = m /\ c = x00 /\ e = Some EOF).
Proof.
  unfold ReadByte, Read, readFromPos, min_int. rewrite make_1.
  change (len [x00]) with 1.
  destruct (Z.ltb_spec 0 (wrap (len (buff m) - pos m))) as [Ha | Ha].
  - destruct (slice_from (buff m) (pos m)); [| discriminate].
    rewrite Z.min_r by lia. simpl.
    destruct (index (copy [x00] l) 0); [| discriminate].
    intros E. inversion E. left. reflexivity.
  - intros E. inversion E. right. auto.
Qed.

Lemma copy_one (d c : byte) (l : list byte) : copy [d] (c :: l) = [c].
Proof. reflexivity. Qed.

Lemma ReadByte_some m c :
  len (buff m) <= maxInt -> 0 <= pos m < len (buff m) ->
  nth_error (buff m) (Z.to_nat (pos m)) = Some c ->
  ReadByte m = Some (set_pos m (pos m + 1), c, None).
Proof.
  intros Hb Hp Hc. pose proof minInt_neg as Hm.
  unfold ReadByte, Read. rewrite make_1.
  rewrite readFromPos_eq by lia.
  destruct (Z.ltb_spec (pos m) (len (buff m))); [| lia].
  cbv zeta. change (len [x00]) with 1.
  rewrite Z.min_r by lia. simpl.
  rewrite <- hd_error_skipn in Hc.
  destruct (skipn (Z.to_nat (pos m)) (buff m)) as [| c' l]; [discriminate |].
  simpl in Hc. inversion Hc. subst c'.
  rewrite copy_one. simpl.
  rewrite wrap_fits by (unfold fits; lia). reflexivity.
Qed.

Lemma ReadByte_eof m :
  len (buff m) <= maxInt -> len (buff m) <= pos m <= maxInt ->
  ReadByte m = Some (m, x00, Some EOF).
Proof.
  intros Hb Hp. pose proof (len_nonneg (buff m)).
  unfold ReadByte, Read. rewrite make_1.
  rewrite readFromPos_eq by lia.
  destruct (Z.ltb_spec (pos m) (len (buff m))); [lia | reflexivity].
Qed.

Lemma nth_error_in_range {A} (l : list A) (i : Z) :
  0 <= i < len l -> exists c, nth_error l (Z.to_nat i) = Some c.
Proof.
  unfold len. intros H.
  destruct (nth_error l (Z.to_nat i)) eqn:E; [eauto |].
  apply nth_error_None in E. lia.
Qed.

(** ** Every call keeps the buffer well formed *)

Lemma len_repeat (c : byte) (n : Z) : 0 <= n -> len (repeat c (Z.to_nat n)) = n.
Proof. intros H. unfold len. rewrite repeat_length. lia. Qed.

Lemma make_inv n b : make n = Some b -> len b = n /\ 0 <= n <= maxInt.
Proof.
  unfold make.
  destruct (Z.leb_spec 0 n); destruct (Z.leb_spec n maxInt); simpl; try discriminate.
  intros E. inversion E. rewrite len_repeat by lia. lia.
Qed.

Lemma Reset_well_formed m size m' : Reset m size = Some m' -> well_formed m'.
Proof.
  unfold Reset, well_formed, representable, cursor_ok.
  destruct (Z.ltb_spec 0 size).
  - destruct (make size) as [b |] eqn:E; [| discriminate].
    apply make_inv in E. intros H'. inversion H'. simpl. lia.
  - intros H'. inversion H'. simpl. change (len (@nil byte)) with 0.
    pose proof maxInt_pos. lia.
Qed.

Lemma Clone_well_formed m r : Clone m = Some r -> well_formed r.
Proof.
  unfold Clone. destruct (NewByteBuffer (Size m)) as [r0 |] eqn:E; [| discriminate].
  apply Reset_well_formed in E. intros H. inversion H.
  unfold well_formed, representable, cursor_ok, len in *. simpl.
  rewrite copy_length. lia.
Qed.

Lemma Seek_well_formed m offset whence :
  well_formed m -> well_formed (fst (fst (Seek m offset whence))).
Proof.
  intros Hm. unfold Seek, posOverflow.
  destruct (seekTarget m offset whence) as [t |]; [| exact Hm].
  destruct (Z.ltb_spec t 0); [exact Hm |].
  destruct (Z.leb_spec (len (buff m)) t); [exact Hm |].
  unfold well_formed, representable, cursor_ok in *. simpl. lia.
Qed.

Lemma Read_well_formed m p m' p' n e :
  well_formed m -> Read m p = Some (m', p', n, e) -> well_formed m'.
Proof.
  intros [Hb Hc]. unfold representable, cursor_ok in *.
  unfold Read. rewrite readFromPos_eq by lia.
  destruct (Z.ltb_spec (pos m) (len (buff m))).
  - cbv zeta. intros E. inversion E. subst. clear E.
    unfold well_formed, representable, cursor_ok. simpl.
    rewrite wrap_fits by int_range.
    pose proof (len_nonneg p). lia.
  - intros E. inversion E. subst. split; assumption.
Qed.

Lemma Write_well_formed m p m' n e :
  well_formed m -> len p <= maxInt -> Write m p = Some (m', n, e) -> well_formed m'.
Proof.
  intros [Hb Hc] Hp. unfold representable, cursor_ok in *.
  unfold Write. rewrite writeFromPos_eq by lia.
  destruct (Z.leb_spec (pos m + len p) maxInt) as [Hs | Hs]; [| discriminate].
  intros E. inversion E. subst. clear E.
  pose proof (spec_storage_len (buff m) p (pos m) Hc) as Hl.
  pose proof (spec_storage_fits (buff m) p (pos m) Hb Hc Hs) as Hf.
  pose proof (spec_appended_nonneg (buff m) p (pos m)) as Ha.
  unfold well_formed, representable, cursor_ok. simpl.
  rewrite wrap_fits by int_range. lia.
Qed.

Lemma WriteAt_well_formed m p off m' n e :
  well_formed m -> len p <= maxInt -> fits off ->
  WriteAt m p off = Some (m', n, e) -> well_formed m'.
Proof.
  intros [Hb Hc] Hp Ho. unfold representable, cursor_ok in *.
  unfold WriteAt, posOverflow, int_of_int64. rewrite (wrap_fits off Ho).
  destruct (Z.ltb_spec off 0); [intros E; inversion E; subst; split; assumption |].
  destruct (Z.leb_spec (len (buff m)) off); [intros E; inversion E; subst; split; assumption |].
  rewrite writeFromPos_eq by lia.
  destruct (Z.leb_spec (off + len p) maxInt) as [Hs | Hs]; [| discriminate].
  intros E. inversion E. subst. clear E.
  assert (Hoff : 0 <= off <= len (buff m)) by lia.
  pose proof (spec_storage_len (buff m) p off Hoff) as Hl.
  pose proof (spec_storage_fits (buff m) p off Hb Hoff Hs) as Hf.
  pose proof (spec_appended_nonneg (buff m) p off) as Ha.
  unfold well_formed, representable, cursor_ok. simpl.
  rewrite wrap_fits by int_range. lia.
Qed.

Lemma ReadByte_through_Read m m' c e :
  ReadByte m = Some (m', c, e) ->
  exists p' n e', Read m [x00] = Some (m', p', n, e').
Proof.
  unfold ReadByte. rewrite make_1.
  destruct (Read m [x00]) as [[[[m1 p1] n1] e1] |]; [| discriminate].
  destruct e1.
  - intros E. inversion E. subst. eauto.
  - destruct (negb (n1 =? 1)).
    + intros E. inversion E. subst. eauto.
    + destruct (index p1 0); [| discriminate]. intros E. inversion E. subst. eauto.
Qed.

Lemma ReadByte_well_formed m m' c e :
  well_formed m -> ReadByte m = Some (m', c, e) -> well_formed m'.
Proof.
  intros Hm E. apply ReadByte_through_Read in E. destruct E as (p' & n & e' & E).
  eapply Read_well_formed; eassumption.
Qed.

Lemma WriteByte_inv m c m' e :
  WriteByte m c = Some (m', e) ->
  e = None /\ buff m' = buff m ++ [c] /\ pos m' = len (buff m') /\ representable m'.
Proof.
  unfold WriteByte. destruct (append (buff m) [c]) as [b |] eqn:E; [| discriminate].
  apply append_inv in E. destruct E as [-> Hl].
  intros H. inversion H. subst. simpl. unfold representable. simpl.
  rewrite len_app. auto.
Qed.

Lemma WriteByte_well_formed m c m' e :
  WriteByte m c = Some (m', e) -> well_formed m'.
Proof.
  intros E. apply WriteByte_inv in E. destruct E as (_ & _ & Hp & Hr).
  split; [exact Hr |]. unfold cursor_ok. rewrite Hp. pose proof (len_nonneg (buff m')). lia.
Qed.

Lemma store_len {A} (l : list A) i v l' : store l i v = Some l' -> len l' = len l.
Proof.
  unfold store.
  destruct (Z.leb_spec 0 i); destruct (Z.ltb_spec i (len l)); cbn [andb]; try discriminate.
  intros E. inversion E. subst. clear E. unfold len in *.
  rewrite length_app. cbn [length]. rewrite length_firstn, length_skipn. lia.
Qed.

Lemma PutUvarint_loop_len fuel : forall buf x i buf' n,
  binary.PutUvarint_loop fuel buf x i = Some (buf', n) ->
  len buf' = len buf /\ (0 <= i -> i < n <= len buf).
Proof.
  induction fuel as [| fuel IH]; simpl; intros buf x i buf' n; [discriminate |].
  destruct (128 <=? x).
  - destruct (store buf i _) as [b1 |] eqn:E; [| discriminate].
    intros H. apply IH in H. destruct H as [H1 H2].
    apply store_len in E. rewrite E in *. split; [exact H1 |]. intros Hi. lia.
  - destruct (store buf i _) as [b1 |] eqn:E; [| discriminate].
    intros H. inversion H. subst. clear H.
    pose proof (store_len _ _ _ _ E) as Hl. split; [exact Hl |].
    unfold store in E.
    destruct (Z.leb_spec 0 i); destruct (Z.ltb_spec i (len buf)); simpl in E; try discriminate.
    lia.
Qed.

Lemma WriteUInt64Var_through_Write m x m' n e :
  WriteUInt64Var m x = Some (m', n, e) ->
  exists p, len p <= binary.MaxVarintLen64 /\ Write m p = Some (m', n, e).
Proof.
  unfold WriteUInt64Var.
  destruct (make binary.MaxVarintLen64) as [b |] eqn:Eb; [| discriminate].
  apply make_inv in Eb. destruct Eb as [Eb _].
  destruct (binary.PutUvarint b x) as [[b' k] |] eqn:Ep; [| discriminate].
  apply PutUvarint_loop_len in Ep. destruct Ep as [Ep _].
  unfold slice_to.
  destruct (Z.leb_spec 0 k); destruct (Z.leb_spec k (len b')); simpl; try discriminate.
  intros E. exists (firstn (Z.to_nat k) b'). split; [| exact E].
  rewrite len_firstn by lia. lia.
Qed.

Lemma WriteUInt64Var_well_formed m x m' n e :
  well_formed m -> WriteUInt64Var m x = Some (m', n, e) -> well_formed m'.
Proof.
  intros Hm E. apply WriteUInt64Var_through_Write in E. destruct E as (p & Hp & E).
  eapply Write_well_formed; [exact Hm | | exact E].
  unfold binary.MaxVarintLen64 in Hp. pose proof maxInt_pos. unfold maxInt in *. lia.
Qed.

Lemma ReadUvarint_loop_well_formed fuel : forall i x s m m' v e,
  well_formed m ->
  binary.ReadUvarint_loop fuel i x s m = Some (m', v, e) -> well_formed m'.
Proof.
  induction fuel as [| fuel IH]; simpl; intros i x s m m' v e Hm.
  - intros E. inversion E. subst. exact Hm.
  - unfold binary.readByte, ByteBuffer_ByteReader.
    destruct (ReadByte m) as [[[m1 b] e1] |] eqn:Er; [| discriminate].
    apply ReadByte_well_formed in Er; [| exact Hm].
    destruct e1.
    + intros E. inversion E. subst. exact Er.
    + destruct (Z_of_byte b <? 128).
      * match goal with |- context [if ?c then _ else _] => destruct c end;
          intros E; inversion E; subst; exact Er.
      * apply IH. exact Er.
Qed.

(** Every call of the interface keeps a well-formed buffer well
    formed. *)
Lemma after_well_formed c m m' :
  well_formed m -> well_typed c -> after c m = Some m' -> well_formed m'.
Proof.
  intros Hm Ht.
  destruct c; simpl in *;
    try (intros E; inversion E; subst; clear E; apply Seek_well_formed; exact Hm).
  - apply Reset_well_formed.
  - apply Reset_well_formed.
  - destruct (Read m p) as [[[[m1 p1] n1] e1] |] eqn:E; [| discriminate].
    intros H. inversion H. subst. simpl. eapply Read_well_formed; eassumption.
  - destruct (ReadAt m p off) as [[[[m1 p1] n1] e1] |] eqn:E; [| discriminate].
    intros H. inversion H. subst. simpl. apply ReadAt_frame in E. subst. exact Hm.
  - destruct (Write m p) as [[[m1 n1] e1] |] eqn:E; [| discriminate].
    intros H. inversion H. subst. simpl. eapply Write_well_formed; eassumption.
  - destruct (WriteAt m p off) as [[[m1 n1] e1] |] eqn:E; [| discriminate].
    intros H. inversion H. subst. simpl. destruct Ht.
    eapply WriteAt_well_formed; eassumption.
  - destruct (ReadByte m) as [[[m1 c1] e1] |] eqn:E; [| discriminate].
    intros H. inversion H. subst. simpl. eapply ReadByte_well_formed; eassumption.
  - destruct (WriteByte m c) as [[m1 e1] |] eqn:E; [| discriminate].
    intros H. inversion H. subst. simpl. eapply WriteByte_well_formed; eassumption.
  - destruct (ByteAt m ps) as [[[m1 c1] e1] |] eqn:E; [| discriminate].
    intros H. inversion H. subst. simpl. apply ByteAt_frame in E. subst. exact Hm.
  - destruct (WriteUInt64Var m x) as [[[m1 n1] e1] |] eqn:E; [| discriminate].
    intros H. inversion H. subst. simpl. eapply WriteUInt64Var_well_formed; eassumption.
  - destruct (ReadUInt64Var m) as [[[m1 v1] e1] |] eqn:E; [| discriminate].
    intros H. inversion H. subst. simpl.
    eapply ReadUvarint_loop_well_formed; eassumption.
Qed.

Lemma reachable_well_formed m : reachable m -> well_formed m.
Proof.
  induction 1 as [size m Hs E | m r _ _ E | c m m' _ IH Ht E].
  - eapply Reset_well_formed; exact E.
  - eapply Clone_well_formed; exact E.
  - eapply after_well_formed; eassumption.
Qed.

(** Closes a side condition on concrete numbers by evaluation. *)
Ltac by_evaluation := vm_compute; repeat split; discriminate.

(** ** Writing *)

(** C1, as the code has it by design: for a buffer with [0 <= offset <
    length(storage)], [WriteAt(src, offset)] performs the shared
    overlap/append write at [offset] and returns [length(src)] with no
    error; when the write falls entirely inside the storage, so that
    nothing is appended, the cursor keeps the value it had before the
    call.  Where the cursor lands after a [WriteAt] that appends is
    left open. *)
Theorem WriteAt_inside_keeps_cursor :
  forall m p off,
    representable m -> cursor_ok m ->
    0 <= off < len (buff m) -> off + len p <= maxInt ->
    let overlap := Z.min (len (buff m) - off) (len p) in
    exists cursor,
      WriteAt m p off =
        Some ({| buff := firstn (Z.to_nat off) (buff m)
                           ++ firstn (Z.to_nat overlap) p
                           ++ skipn (Z.to_nat (off + overlap)) (buff m)
                           ++ skipn (Z.to_nat overlap) p;
                 pos := cursor |}, len p, None)
      /\ (len p <= len (buff m) - off ->
          cursor = pos m
          /\ len (firstn (Z.to_nat off) (buff m)
                    ++ firstn (Z.to_nat overlap) p
                    ++ skipn (Z.to_nat (off + overlap)) (buff m)
                    ++ skipn (Z.to_nat overlap) p) = len (buff m)).
Proof.
  intros m p off Hb Hc Ho Hs overlap.
  unfold representable, cursor_ok in *.
  assert (Hoff : 0 <= off <= len (buff m)) by lia.
  unfold WriteAt, posOverflow, int_of_int64.
  rewrite (wrap_fits off) by int_range.
  destruct (Z.ltb_spec off 0); [lia |].
  destruct (Z.leb_spec (len (buff m)) off); [lia |].
  rewrite writeFromPos_eq by int_range.
  destruct (Z.leb_spec (off + len p) maxInt); [| lia].
  exists (wrap (pos m + spec_appended (buff m) p off)).
  split; [reflexivity |].
  intros Hin.
  pose proof (spec_storage_len (buff m) p off Hoff) as Hl.
  assert (Ha : spec_appended (buff m) p off = 0).
  { unfold spec_appended, spec_overlap. lia. }
  rewrite Ha, Z.add_0_r in *.
  split; [apply wrap_fits; int_range | exact Hl].
Qed.

Lemma WriteAt_inside_keeps_cursor_witness :
  representable {| buff := abcdef; pos := 5 |}
  /\ cursor_ok {| buff := abcdef; pos := 5 |}
  /\ 0 <= 1 < len abcdef
  /\ 1 + len [x78; x79] <= maxInt
  /\ exists cursor,
      WriteAt {| buff := abcdef; pos := 5 |} [x78; x79] 1
        = Some ({| buff := [x61; x78; x79; x64; x65; x66]; pos := cursor |}, 2, None)
      /\ (len [x78; x79] <= len abcdef - 1 ->
          cursor = 5 /\ len [x61; x78; x79; x64; x65; x66] = len abcdef).
Proof.
  assert (H1 : representable {| buff := abcdef; pos := 5 |}) by by_evaluation.
  assert (H2 : cursor_ok {| buff := abcdef; pos := 5 |}) by by_evaluation.
  assert (H3 : 0 <= 1 < len abcdef) by by_evaluation.
  assert (H4 : 1 + len [x78; x79] <= maxInt) by by_evaluation.
  refine (conj H1 (conj H2 (conj H3 (conj H4 _)))).
  exact (WriteAt_inside_keeps_cursor {| buff := abcdef; pos := 5 |} [x78; x79] 1 H1 H2 H3 H4).
Defined.

(** C1 as stated fails: on ["abcdef"] with the cursor at 0,
    [WriteAt("xy", 3)] writes inside the storage, appends nothing and
    leaves the cursor at 0, where the claim has [3 + 0]. *)
Lemma WriteAt_cursor_is_not_offset_plus_appended :
  WriteAt {| buff := abcdef; pos := 0 |} [x78; x79] 3
    = Some ({| buff := abcxyf; pos := 0 |}, 2, None)
  /\ len abcxyf - len abcdef = 0
  /\ pos {| buff := abcxyf; pos := 0 |} <> 3 + (len abcxyf - len abcdef).
Proof. by_evaluation. Qed.

(** C3: [Write(src)] overwrites [min(length(storage) - cursor,
    length(src))] bytes in place at the cursor, appends the remaining
    bytes of [src] to the end of the storage, advances the cursor by
    the appended amount only, returns [length(src)] and no error; on
    ["abcdef"] with the cursor at 3, [Write("abcdef")] leaves
    ["abcabcdef"], of length 9, with the cursor at 6. *)
Theorem Write_overwrites_then_appends :
  (forall m p,
      representable m -> cursor_ok m -> pos m + len p <= maxInt ->
      let overlap := Z.min (len (buff m) - pos m) (len p) in
      let appended := len p - overlap in
      Write m p =
        Some ({| buff := firstn (Z.to_nat (pos m)) (buff m)
                           ++ firstn (Z.to_nat overlap) p
                           ++ skipn (Z.to_nat (pos m + overlap)) (buff m)
                           ++ skipn (Z.to_nat overlap) p;
                 pos := pos m + appended |}, len p, None)
      /\ len (buff m) + appended
         = len (firstn (Z.to_nat (pos m)) (buff m)
                  ++ firstn (Z.to_nat overlap) p
                  ++ skipn (Z.to_nat (pos m + overlap)) (buff m)
                  ++ skipn (Z.to_nat overlap) p))
  /\ Write {| buff := abcdef; pos := 3 |} abcdef
     = Some ({| buff := abcabcdef; pos := 6 |}, 6, None)
  /\ len abcabcdef = 9.
Proof.
  split; [| split; reflexivity].
  intros m p Hb Hc Hs overlap appended.
  unfold representable, cursor_ok in *.
  pose proof (spec_storage_len (buff m) p (pos m) Hc) as Hl.
  split; [| symmetry; exact Hl].
  unfold Write.
  rewrite writeFromPos_eq by int_range.
  destruct (Z.leb_spec (pos m + len p) maxInt); [| lia].
  pose proof (spec_storage_fits (buff m) p (pos m) Hb Hc Hs) as Hf.
  rewrite Hl in Hf.
  pose proof (spec_appended_nonneg (buff m) p (pos m)) as Ha.
  simpl pos. rewrite wrap_fits by int_range.
  reflexivity.
Qed.

Lemma Write_overwrites_then_appends_witness :
  representable {| buff := abcdef; pos := 4 |}
  /\ cursor_ok {| buff := abcdef; pos := 4 |}
  /\ 4 + len abcxyf <= maxInt
  /\ Write {| buff := abcdef; pos := 4 |} abcxyf
     = Some ({| buff := [x61; x62; x63; x64; x61; x62; x63; x78; x79; x66];
                pos := 8 |}, 6, None).
Proof.
  assert (H1 : representable {| buff := abcdef; pos := 4 |}) by by_evaluation.
  assert (H2 : cursor_ok {| buff := abcdef; pos := 4 |}) by by_evaluation.
  assert (H3 : pos {| buff := abcdef; pos := 4 |} + len abcxyf <= maxInt) by by_evaluation.
  refine (conj H1 (conj H2 (conj H3 _))).
  exact (proj1 (proj1 Write_overwrites_then_appends
                 {| buff := abcdef; pos := 4 |} abcxyf H1 H2 H3)).
Defined.

(** C9: [WriteByte(b)] appends [b] at the end of the storage whatever
    the cursor was, overwrites nothing, leaves the cursor at the new
    length and returns no error. *)
Theorem WriteByte_appends_at_end :
  (forall m c,
      len (buff m) < maxInt ->
      WriteByte m c = Some ({| buff := buff m ++ [c]; pos := len (buff m) + 1 |}, None))
  /\ (forall m c m' e,
         WriteByte m c = Some (m', e) ->
         e = None /\ buff m' = buff m ++ [c] /\ pos m' = len (buff m')
         /\ len (buff m') = len (buff m) + 1).
Proof.
  split.
  - intros m c H. unfold WriteByte.
    rewrite append_ok by (change (len [c]) with 1; lia).
    unfold set_pos, set_buff. simpl. rewrite len_app. reflexivity.
  - intros m c m' e E. apply WriteByte_inv in E.
    destruct E as (He & Hb & Hp & _). repeat split; try assumption.
    rewrite Hb, len_app. reflexivity.
Qed.

Lemma WriteByte_appends_at_end_witness :
  len (buff {| buff := abcdef; pos := 2 |}) < maxInt
  /\ WriteByte {| buff := abcdef; pos := 2 |} x78
     = Some ({| buff := [x61; x62; x63; x64; x65; x66; x78]; pos := 7 |}, None).
Proof.
  assert (H : len (buff {| buff := abcdef; pos := 2 |}) < maxInt) by reflexivity.
  split; [exact H |].
  exact (proj1 WriteByte_appends_at_end {| buff := abcdef; pos := 2 |} x78 H).
Defined.

(** ** Seeking *)

Lemma seekTarget_fits m offset whence t :
  seekTarget m offset whence = Some t -> fits t.
Proof.
  unfold seekTarget, int_of_int64.
  destruct (whence =? SeekStart); [intros E; inversion E; apply wrap_range |].
  destruct (whence =? SeekCurrent); [intros E; inversion E; apply wrap_range |].
  destruct (whence =? SeekEnd); [intros E; inversion E; apply wrap_range | discriminate].
Qed.


(** C4, as the code has it: for a valid whence and an offset whose
    target (the offset, the cursor plus the offset, or the length plus
    the offset) is an [int], [Seek] fails with [ErrSeekOverflow]
    exactly when the target is not negative and is at or past
    [length(storage)]; it succeeds exactly on the targets of
    [[0, length(storage))], and then the cursor is the target, the
    storage is untouched and the target is returned.  On an empty
    buffer every [Seek] fails. *)
Theorem Seek_valid_targets :
  (forall m offset whence,
      whence = SeekStart \/ whence = SeekCurrent \/ whence = SeekEnd ->
      fits offset ->
      fits (spec_seek_target m offset whence) ->
      (snd (Seek m offset whence) = Some ErrSeekOverflow
       <-> 0 <= spec_seek_target m offset whence
           /\ len (buff m) <= spec_seek_target m offset whence)
      /\ (snd (Seek m offset whence) = None
          <-> 0 <= spec_seek_target m offset whence < len (buff m))
      /\ (0 <= spec_seek_target m offset whence < len (buff m) ->
          Seek m offset whence
          = ({| buff := buff m; pos := spec_seek_target m offset whence |},
             spec_seek_target m offset whence, None)))
  /\ (forall m offset whence,
         buff m = [] ->
         snd (Seek m offset whence) <> None /\ fst (fst (Seek m offset whence)) = m).
Proof.
  split.
  - intros m offset whence Hw Ho Hf.
    assert (Et : seekTarget m offset whence = Some (spec_seek_target m offset whence)).
    { revert Hf. unfold seekTarget, spec_seek_target, int_of_int64.
      rewrite (wrap_fits offset Ho).
      destruct Hw as [-> | [-> | ->]]; simpl; intros Hf.
      - reflexivity.
      - rewrite (Z.add_comm offset), (wrap_fits _ Hf). reflexivity.
      - rewrite (Z.add_comm offset), (wrap_fits _ Hf). reflexivity. }
    unfold Seek, posOverflow, int64_of_int. rewrite Et, (wrap_fits _ Hf).
    set (t := spec_seek_target m offset whence) in *.
    pose proof (len_nonneg (buff m)).
    destruct (Z.ltb_spec t 0); destruct (Z.leb_spec (len (buff m)) t); simpl;
      (split; [| split]);
      try (split; [intros E; try discriminate E; lia | intros E; try reflexivity; lia]);
      try (intros E; try reflexivity; lia).
  - intros m offset whence Hb. unfold Seek, posOverflow. rewrite Hb.
    change (len (@nil byte)) with 0.
    destruct (seekTarget m offset whence) as [t |]; [| split; [discriminate | reflexivity]].
    destruct (Z.ltb_spec t 0); [split; [discriminate | reflexivity] |].
    destruct (Z.leb_spec 0 t); [split; [discriminate | reflexivity] | lia].
Qed.

Lemma Seek_valid_targets_witness :
  (SeekEnd = SeekStart \/ SeekEnd = SeekCurrent \/ SeekEnd = SeekEnd)
  /\ fits (-2)
  /\ fits (spec_seek_target {| buff := abcdef; pos := 1 |} (-2) SeekEnd)
  /\ 0 <= spec_seek_target {| buff := abcdef; pos := 1 |} (-2) SeekEnd
       < len (buff {| buff := abcdef; pos := 1 |})
  /\ Seek {| buff := abcdef; pos := 1 |} (-2) SeekEnd
     = ({| buff := abcdef; pos := 4 |}, 4, None).
Proof.
  assert (H1 : SeekEnd = SeekStart \/ SeekEnd = SeekCurrent \/ SeekEnd = SeekEnd)
    by (right; right; reflexivity).
  assert (H2 : fits (-2)) by by_evaluation.
  assert (H3 : fits (spec_seek_target {| buff := abcdef; pos := 1 |} (-2) SeekEnd))
    by by_evaluation.
  assert (H4 : 0 <= spec_seek_target {| buff := abcdef; pos := 1 |} (-2) SeekEnd
               < len (buff {| buff := abcdef; pos := 1 |})) by by_evaluation.
  refine (conj H1 (conj H2 (conj H3 (conj H4 _)))).
  exact (proj2 (proj2 (proj1 Seek_valid_targets {| buff := abcdef; pos := 1 |} (-2) SeekEnd
                         H1 H2 H3)) H4).
Defined.

(** C4 as stated fails: on ["abcdef"], [Seek(MaxInt64, io.SeekEnd)] has
    the target [6 + MaxInt64], which is not negative and is past the
    length, and it fails with [ErrSeekNegative], where the claim has
    [ErrSeekOverflow]: the sum wraps around in [int]. *)
Lemma Seek_past_maxInt_is_not_ErrSeekOverflow :
  Seek {| buff := abcdef; pos := 2 |} maxInt SeekEnd
    = ({| buff := abcdef; pos := 2 |}, -1, Some ErrSeekNegative)
  /\ spec_seek_target {| buff := abcdef; pos := 2 |} maxInt SeekEnd = 6 + (2 ^ 63 - 1)
  /\ 0 <= spec_seek_target {| buff := abcdef; pos := 2 |} maxInt SeekEnd
  /\ len (buff {| buff := abcdef; pos := 2 |})
     <= spec_seek_target {| buff := abcdef; pos := 2 |} maxInt SeekEnd
  /\ snd (Seek {| buff := abcdef; pos := 2 |} maxInt SeekEnd) <> Some ErrSeekOverflow.
Proof. by_evaluation. Qed.

(** ** Reading *)

Lemma copy_available (p b : list byte) (ps : Z) :
  0 <= ps -> len b - ps <= len p ->
  copy p (skipn (Z.to_nat ps) b)
  = skipn (Z.to_nat ps) b ++ skipn (Z.to_nat (len b - ps)) p.
Proof.
  intros H0 H. unfold len in *.
  rewrite copy_short by (rewrite length_skipn; lia).
  rewrite length_skipn.
  replace (length b - Z.to_nat ps)%nat with (Z.to_nat (Z.of_nat (length b) - ps)) by lia.
  reflexivity.
Qed.

(** C2, as the code has it: a read from a position with fewer
    available bytes than the destination holds returns exactly the
    available bytes, copied from the storage at that position, with
    [io.EOF]; a read from a position at or past [length(storage)]
    returns the count [-1], not [0], with [io.EOF], copies nothing and
    leaves the cursor where it was. *)
Theorem read_past_end :
  (forall m p,
      well_formed m -> 0 < len (buff m) - pos m < len p ->
      Read m p =
        Some (set_pos m (len (buff m)),
              skipn (Z.to_nat (pos m)) (buff m)
                ++ skipn (Z.to_nat (len (buff m) - pos m)) p,
              len (buff m) - pos m, Some EOF))
  /\ (forall m p off,
         representable m -> 0 <= off -> 0 < len (buff m) - off < len p ->
         ReadAt m p off =
           Some (m,
                 skipn (Z.to_nat off) (buff m)
                   ++ skipn (Z.to_nat (len (buff m) - off)) p,
                 len (buff m) - off, Some EOF))
  /\ (forall m p ps incPos,
         representable m -> len (buff m) <= ps <= maxInt ->
         readFromPos m p ps incPos = Some (m, p, -1, Some EOF))
  /\ (forall m p,
         well_formed m -> len (buff m) <= pos m ->
         Read m p = Some (m, p, -1, Some EOF)).
Proof.
  assert (Hend : forall m p ps incPos,
             representable m -> len (buff m) <= ps <= maxInt ->
             readFromPos m p ps incPos = Some (m, p, -1, Some EOF)).
  { intros m p ps incPos Hb Hps. unfold representable in Hb.
    pose proof (len_nonneg (buff m)).
    rewrite readFromPos_eq by lia.
    destruct (Z.ltb_spec ps (len (buff m))); [lia | reflexivity]. }
  split; [| split; [| split]].
  - intros m p [Hb Hc] Ha. unfold representable, cursor_ok in *.
    unfold Read. rewrite readFromPos_eq by lia.
    destruct (Z.ltb_spec (pos m) (len (buff m))); [| lia].
    cbv zeta. rewrite Z.min_l by lia.
    destruct (Z.ltb_spec (len (buff m) - pos m) (len p)); [| lia].
    rewrite copy_available by lia.
    replace (pos m + (len (buff m) - pos m)) with (len (buff m)) by lia.
    rewrite wrap_fits by int_range. reflexivity.
  - intros m p off Hb Ho Ha. unfold representable in Hb.
    unfold ReadAt, posOverflow, int_of_int64.
    rewrite (wrap_fits off) by int_range.
    destruct (Z.ltb_spec off 0); [lia |].
    destruct (Z.leb_spec (len (buff m)) off); [lia |].
    rewrite readFromPos_eq by lia.
    destruct (Z.ltb_spec off (len (buff m))); [| lia].
    cbv zeta. rewrite Z.min_l by lia.
    destruct (Z.ltb_spec (len (buff m) - off) (len p)); [| lia].
    rewrite copy_available by lia. reflexivity.
  - exact Hend.
  - intros m p [Hb Hc] Hp. unfold Read. apply Hend; [exact Hb |].
    unfold representable, cursor_ok in *. lia.
Qed.

Lemma read_past_end_witness :
  well_formed {| buff := abcdef; pos := 4 |}
  /\ 0 < len (buff {| buff := abcdef; pos := 4 |}) - pos {| buff := abcdef; pos := 4 |}
       < len [x00; x00; x00]
  /\ Read {| buff := abcdef; pos := 4 |} [x00; x00; x00]
     = Some ({| buff := abcdef; pos := 6 |}, [x65; x66; x00], 2, Some EOF).
Proof.
  assert (H1 : well_formed {| buff := abcdef; pos := 4 |}) by by_evaluation.
  assert (H2 : 0 < len (buff {| buff := abcdef; pos := 4 |})
                   - pos {| buff := abcdef; pos := 4 |}
               < len [x00; x00; x00]) by by_evaluation.
  refine (conj H1 (conj H2 _)).
  exact (proj1 read_past_end {| buff := abcdef; pos := 4 |} [x00; x00; x00] H1 H2).
Defined.

(** C2 as stated fails: a read of one byte from the empty buffer, as
    in [TestByteBufferReadEmpty], returns the count [-1] with [io.EOF],
    where the claim has 0 bytes read. *)
Lemma Read_at_end_returns_minus_one :
  NewByteBuffer 0 = Some {| buff := []; pos := 0 |}
  /\ Read {| buff := []; pos := 0 |} [x00]
     = Some ({| buff := []; pos := 0 |}, [x00], -1, Some EOF)
  /\ Read {| buff := abcdef; pos := 6 |} [x00]
     = Some ({| buff := abcdef; pos := 6 |}, [x00], -1, Some EOF)
  /\ -1 <> 0.
Proof. by_evaluation. Qed.

(** C7: [ReadAt], and [ByteAt] built on it, return the buffer as they
    found it, cursor and storage, whether they succeed, return a
    partial count with [io.EOF] or fail with an offset error; and they
    do return. *)
Theorem ReadAt_leaves_buffer_unchanged :
  (forall m p off m' p' n e, ReadAt m p off = Some (m', p', n, e) -> m' = m)
  /\ (forall m ps m' c e, ByteAt m ps = Some (m', c, e) -> m' = m)
  /\ (forall m p off,
         representable m -> exists p' n e, ReadAt m p off = Some (m, p', n, e))
  /\ (forall m ps,
         representable m -> exists c e, ByteAt m ps = Some (m, c, e)).
Proof.
  split; [exact ReadAt_frame |]. split; [exact ByteAt_frame |].
  split; [exact ReadAt_total |].
  intros m ps Hb. unfold ByteAt. rewrite make_1.
  destruct (ReadAt_total m [x00] (int64_of_int ps) Hb) as (p' & n & e & E).
  rewrite E. destruct e; [eauto |].
  destruct (negb (n =? 1)); [eauto |].
  assert (Hl : length p' = 1%nat).
  { revert E. unfold ReadAt.
    destruct (int_of_int64 (int64_of_int ps) <? 0); [discriminate |].
    destruct (posOverflow m (int_of_int64 (int64_of_int ps))); [discriminate |].
    unfold readFromPos.
    destruct (0 <? wrap (len (buff m) - int_of_int64 (int64_of_int ps))); [| discriminate].
    destruct (slice_from (buff m) (int_of_int64 (int64_of_int ps))); [| discriminate].
    intros E. inversion E. apply copy_length. }
  destruct p' as [| c p']; [discriminate |]. simpl. eauto.
Qed.

Lemma ReadAt_leaves_buffer_unchanged_witness :
  ReadAt {| buff := abcdef; pos := 2 |} [x00; x00] 5
    = Some ({| buff := abcdef; pos := 2 |}, [x66; x00], 1, Some EOF)
  /\ {| buff := abcdef; pos := 2 |} = {| buff := abcdef; pos := 2 |}.
Proof.
  assert (H : ReadAt {| buff := abcdef; pos := 2 |} [x00; x00] 5
              = Some ({| buff := abcdef; pos := 2 |}, [x66; x00], 1, Some EOF))
    by reflexivity.
  split; [exact H |].
  exact (proj1 ReadAt_leaves_buffer_unchanged _ _ _ _ _ _ _ H).
Defined.

(** C10: [ReadByte] returns the byte at the cursor and advances the
    cursor by one when the cursor is inside the storage, fails with
    [io.EOF] when no byte is available, and never returns
    [ErrByteRead]. *)
Theorem ReadByte_byte_or_EOF :
  (forall m,
      well_formed m -> pos m < len (buff m) ->
      exists c,
        nth_error (buff m) (Z.to_nat (pos m)) = Some c
        /\ ReadByte m = Some ({| buff := buff m; pos := pos m + 1 |}, c, None))
  /\ (forall m,
         well_formed m -> len (buff m) <= pos m ->
         ReadByte m = Some (m, x00, Some EOF))
  /\ (forall m m' c e, ReadByte m = Some (m', c, e) -> e <> Some ErrByteRead).
Proof.
  split; [| split].
  - intros m [Hb Hc] Hp. unfold representable, cursor_ok in *.
    destruct (nth_error_in_range (buff m) (pos m)) as [c Ec]; [lia |].
    exists c. split; [exact Ec |].
    apply ReadByte_some; [exact Hb | lia | exact Ec].
  - intros m [Hb Hc] Hp. unfold representable, cursor_ok in *.
    apply ReadByte_eof; [exact Hb | lia].
  - intros m m' c e E. apply ReadByte_cases in E.
    destruct E as [-> | (_ & _ & ->)]; discriminate.
Qed.

Lemma ReadByte_byte_or_EOF_witness :
  well_formed {| buff := abcdef; pos := 6 |}
  /\ len (buff {| buff := abcdef; pos := 6 |}) <= pos {| buff := abcdef; pos := 6 |}
  /\ ReadByte {| buff := abcdef; pos := 6 |}
     = Some ({| buff := abcdef; pos := 6 |}, x00, Some EOF).
Proof.
  assert (H1 : well_formed {| buff := abcdef; pos := 6 |}) by by_evaluation.
  assert (H2 : len (buff {| buff := abcdef; pos := 6 |})
               <= pos {| buff := abcdef; pos := 6 |}) by by_evaluation.
  refine (conj H1 (conj H2 _)).
  exact (proj1 (proj2 ReadByte_byte_or_EOF) {| buff := abcdef; pos := 6 |} H1 H2).
Defined.

(** ** Failures *)






(** ** The invariant *)

(** C5: [0 <= cursor <= length(storage)] holds of every buffer a
    client can hold: of a new buffer and of a clone, and after every
    call of the interface on a buffer of which it holds, so before and
    after every public operation. *)
Theorem cursor_within_storage :
  (forall size m, NewByteBuffer size = Some m -> 0 <= pos m <= len (buff m))
  /\ (forall c m m',
         representable m -> 0 <= pos m <= len (buff m) -> well_typed c ->
         after c m = Some m' -> 0 <= pos m' <= len (buff m'))
  /\ (forall m, reachable m -> 0 <= pos m <= len (buff m)).
Proof.
  split; [| split].
  - intros size m E. apply Reset_well_formed in E. apply E.
  - intros c m m' Hb Hc Ht E.
    apply (after_well_formed c m m' (conj Hb Hc) Ht E).
  - intros m H. apply reachable_well_formed in H. apply H.
Qed.

Lemma cursor_within_storage_witness :
  reachable {| buff := abcxyf; pos := 0 |}
  /\ 0 <= pos {| buff := abcxyf; pos := 0 |} <= len (buff {| buff := abcxyf; pos := 0 |}).
Proof.
  assert (H : reachable {| buff := abcxyf; pos := 0 |}).
  { apply (reach_call (CWriteAt [x78; x79] 3) {| buff := abcdef; pos := 0 |}).
    - apply (reach_call (CSeek 0 SeekStart) {| buff := abcdef; pos := 6 |}).
      + apply (reach_call (CWrite abcdef) {| buff := []; pos := 0 |}).
        * apply (reach_new 0); [by_evaluation | reflexivity].
        * by_evaluation.
        * reflexivity.
      + by_evaluation.
      + reflexivity.
    - by_evaluation.
    - reflexivity. }
  split; [exact H |].
  exact (proj2 (proj2 cursor_within_storage) _ H).
Defined.

(** ** The varint codec *)

(** C8: the powers of two [1, 2, 4, ..., 2^62] written in sequence
    with [WriteUInt64Var] into an empty buffer, followed by a seek to
    the start, are decoded by [ReadUInt64Var] to the same values in the
    order written; one more decode fails with [io.EOF]. *)
Theorem varint_round_trip_powers_of_two :
  exists m0 m1 m2 m3,
    NewByteBuffer 0 = Some m0
    /\ write_all m0 validation_list = Some (m1, None)
    /\ SeekToStart m1 = (m2, 0, None)
    /\ read_all m2 (length validation_list) = Some (m3, validation_list, None)
    /\ ReadUInt64Var m3 = Some (m3, 0, Some EOF)
    /\ validation_list = map (fun i => 2 ^ Z.of_nat i) (seq 0 63).
Proof.
  do 4 eexists.
  split; [vm_compute; reflexivity |].
  split; [vm_compute; reflexivity |].
  split; [vm_compute; reflexivity |].
  split; [vm_compute; reflexivity |].
  split; [vm_compute; reflexivity | reflexivity].
Qed.

(** ** Construction, cloning and comparison *)

Lemma make_ok n : 0 <= n <= maxInt -> make n = Some (repeat x00 (Z.to_nat n)).
Proof.
  intros H. unfold make.
  destruct (Z.leb_spec 0 n); destruct (Z.leb_spec n maxInt); simpl; try lia. reflexivity.
Qed.

Lemma Reset_eq m size :
  0 <= size <= maxInt ->
  Reset m size = Some {| buff := repeat x00 (Z.to_nat size); pos := 0 |}.
Proof.
  intros H. unfold Reset.
  destruct (Z.ltb_spec 0 size).
  - rewrite make_ok by lia. reflexivity.
  - replace size with 0 by lia. reflexivity.
Qed.

(** X1: whenever [NewByteBuffer(size)] or [Reset(size)] returns, the
    buffer holds exactly [size] zero bytes with the cursor at 0,
    whatever it held before, and [Reset(size)] leaves the buffer
    [NewByteBuffer(size)] makes; [Reset(0)] and [Clear] always return
    the empty buffer. *)
Theorem Reset_gives_zeroed_storage :
  (forall m size m',
      0 <= size -> Reset m size = Some m' ->
      NewByteBuffer size = Some m'
      /\ buff m' = repeat x00 (Z.to_nat size)
      /\ Size m' = size /\ Pos m' = 0)
  /\ (forall m,
         Reset m 0 = Some {| buff := []; pos := 0 |}
         /\ Clear m = Some {| buff := []; pos := 0 |})
  /\ Size {| buff := []; pos := 0 |} = 0
  /\ Empty {| buff := []; pos := 0 |} = true.
Proof.
  split; [| split; [| split]]; try reflexivity.
  - intros m size m' H0 E. unfold NewByteBuffer. unfold Reset in *.
    destruct (Z.ltb_spec 0 size).
    + destruct (make size) as [b |] eqn:Em; [| discriminate].
      pose proof (make_inv _ _ Em) as [Hl _].
      unfold make in Em.
      destruct ((0 <=? size) && (size <=? maxInt)); [| discriminate].
      inversion Em. subst b. inversion E. subst m'.
      unfold Size, Pos. simpl. auto.
    + replace size with 0 in * by lia. inversion E. subst m'.
      unfold Size, Pos. simpl. auto.
  - intros m. split; reflexivity.
Qed.

Lemma Reset_gives_zeroed_storage_witness :
  0 <= 3
  /\ Reset {| buff := abcdef; pos := 4 |} 3 = Some {| buff := [x00; x00; x00]; pos := 0 |}
  /\ NewByteBuffer 3 = Some {| buff := [x00; x00; x00]; pos := 0 |}
  /\ buff {| buff := [x00; x00; x00]; pos := 0 |} = repeat x00 (Z.to_nat 3)
  /\ Size {| buff := [x00; x00; x00]; pos := 0 |} = 3
  /\ Pos {| buff := [x00; x00; x00]; pos := 0 |} = 0.
Proof.
  assert (H1 : 0 <= 3) by by_evaluation.
  assert (H2 : Reset {| buff := abcdef; pos := 4 |} 3
               = Some {| buff := [x00; x00; x00]; pos := 0 |}) by reflexivity.
  refine (conj H1 (conj H2 _)).
  exact (proj1 Reset_gives_zeroed_storage _ 3 _ H1 H2).
Defined.

Lemma copy_onto_zeros (b : list byte) : copy (repeat x00 (length b)) b = b.
Proof.
  rewrite copy_short by (rewrite repeat_length; lia).
  rewrite skipn_all2 by (rewrite repeat_length; lia).
  apply app_nil_r.
Qed.

Lemma make_len (b : list byte) :
  len b <= maxInt -> make (len b) = Some (repeat x00 (length b)).
Proof.
  intros H. rewrite make_ok by (pose proof (len_nonneg b); lia).
  unfold len. rewrite Nat2Z.id. reflexivity.
Qed.

Lemma Clone_eq m : representable m -> Clone m = Some {| buff := buff m; pos := 0 |}.
Proof.
  intros Hb. unfold representable in Hb.
  unfold Clone, NewByteBuffer, Size.
  rewrite Reset_eq by (pose proof (len_nonneg (buff m)); lia).
  unfold set_buff, set_pos. simpl.
  unfold len. rewrite Nat2Z.id, copy_onto_zeros. reflexivity.
Qed.

(** X2: [Clone] returns a buffer with the same bytes and the cursor at
    0, whatever the cursor of the original; [Bytes] returns the bytes
    of the storage. *)
Theorem Clone_copies_storage_and_resets_cursor :
  forall m,
    representable m ->
    Clone m = Some {| buff := buff m; pos := 0 |}
    /\ Bytes m = Some (buff m).
Proof.
  intros m Hb. split; [apply Clone_eq; exact Hb |].
  unfold Bytes. rewrite make_len by exact Hb.
  rewrite copy_onto_zeros. reflexivity.
Qed.

Lemma Clone_copies_storage_and_resets_cursor_witness :
  representable {| buff := abcdef; pos := 4 |}
  /\ Clone {| buff := abcdef; pos := 4 |} = Some {| buff := abcdef; pos := 0 |}
  /\ Bytes {| buff := abcdef; pos := 4 |} = Some abcdef.
Proof.
  assert (H : representable {| buff := abcdef; pos := 4 |}) by by_evaluation.
  split; [exact H |].
  exact (Clone_copies_storage_and_resets_cursor {| buff := abcdef; pos := 4 |} H).
Defined.

Lemma Z_of_byte_inj a b : Z_of_byte a = Z_of_byte b -> a = b.
Proof.
  unfold Z_of_byte. intros H. apply N2Z.inj in H.
  pose proof (Byte.of_to_N a) as Ha. pose proof (Byte.of_to_N b) as Hb'.
  rewrite H in Ha. rewrite Ha in Hb'. inversion Hb'. reflexivity.
Qed.

Lemma Compare_loop_refl a : bytes.Compare_loop a a = None.
Proof.
  induction a as [| c a IH]; simpl; [reflexivity |].
  rewrite Z.ltb_irrefl. exact IH.
Qed.

(** The loop ends without a difference exactly when one slice is a
    prefix of the other. *)
Lemma Compare_loop_None a : forall b,
  bytes.Compare_loop a b = None ->
  firstn (length b) a = firstn (length a) b.
Proof.
  induction a as [| c1 a IH]; intros [| c2 b]; simpl; try reflexivity.
  destruct (Z.ltb_spec (Z_of_byte c1) (Z_of_byte c2)); [discriminate |].
  destruct (Z.ltb_spec (Z_of_byte c2) (Z_of_byte c1)); [discriminate |].
  intros E. rewrite (IH b E).
  assert (c1 = c2) by (apply Z_of_byte_inj; lia). subst. reflexivity.
Qed.

Lemma Compare_loop_Some a : forall b r,
  bytes.Compare_loop a b = Some r -> (r = -1 \/ r = 1) /\ a <> b.
Proof.
  induction a as [| c1 a IH]; intros [| c2 b] r; simpl; try discriminate.
  destruct (Z.ltb_spec (Z_of_byte c1) (Z_of_byte c2)).
  - intros E. inversion E. split; [auto |]. intros E'. inversion E'. subst. lia.
  - destruct (Z.ltb_spec (Z_of_byte c2) (Z_of_byte c1)).
    + intros E. inversion E. split; [auto |]. intros E'. inversion E'. subst. lia.
    + intros E. apply IH in E. destruct E as [Hr Hn]. split; [exact Hr |].
      intros E'. inversion E'. subst. apply Hn. reflexivity.
Qed.

Lemma Compare_loop_swap a : forall b,
  bytes.Compare_loop b a = option_map Z.opp (bytes.Compare_loop a b).
Proof.
  induction a as [| c1 a IH]; intros [| c2 b]; simpl; try reflexivity.
  destruct (Z.ltb_spec (Z_of_byte c1) (Z_of_byte c2));
    destruct (Z.ltb_spec (Z_of_byte c2) (Z_of_byte c1)); try lia; try reflexivity.
  apply IH.
Qed.

(** X3: [CmpWith] is 0 exactly when the two buffers hold the same
    bytes, whatever their cursors; it is -1, 0 or 1; and a buffer
    compares equal to its clone. *)
Theorem CmpWith_zero_iff_same_storage :
  (forall m other, CmpWith m other = 0 <-> buff m = buff other)
  /\ (forall m other,
         CmpWith m other = -1 \/ CmpWith m other = 0 \/ CmpWith m other = 1)
  /\ (forall m r, Clone m = Some r -> CmpWith m r = 0 /\ CmpWith r m = 0).
Proof.
  assert (Hz : forall a b, bytes.Compare a b = 0 <-> a = b).
  { intros a b. unfold bytes.Compare. split.
    - destruct (bytes.Compare_loop a b) as [r |] eqn:E.
      + apply Compare_loop_Some in E. lia.
      + apply Compare_loop_None in E.
        destruct (Z.ltb_spec (len a) (len b)); [discriminate |].
        destruct (Z.ltb_spec (len b) (len a)); [discriminate |].
        intros _. assert (Hl : length a = length b) by (unfold len in *; lia).
        rewrite Hl, firstn_all in E. rewrite <- Hl, firstn_all in E. exact E.
    - intros ->. rewrite Compare_loop_refl, Z.ltb_irrefl. reflexivity. }
  split; [intros m other; apply Hz |]. split.
  - intros m other. unfold CmpWith, bytes.Compare.
    destruct (bytes.Compare_loop (buff m) (buff other)) as [r |] eqn:E.
    + apply Compare_loop_Some in E. lia.
    + destruct (len (buff m) <? len (buff other)); [auto |].
      destruct (len (buff other) <? len (buff m)); auto.
  - intros m r E. unfold Clone in E.
    destruct (NewByteBuffer (Size m)) as [r0 |] eqn:E0; [| discriminate].
    inversion E. subst r. clear E. unfold CmpWith. simpl.
    unfold NewByteBuffer, Reset in E0.
    assert (Hr : buff r0 = repeat x00 (length (buff m))).
    { unfold Size in E0. destruct (Z.ltb_spec 0 (len (buff m))).
      - destruct (make (len (buff m))) as [b |] eqn:Em; [| discriminate].
        inversion E0. simpl. unfold make in Em.
        destruct ((0 <=? len (buff m)) && (len (buff m) <=? maxInt)); [| discriminate].
        inversion Em. unfold len. rewrite Nat2Z.id. reflexivity.
      - inversion E0. simpl.
        rewrite (len_zero_nil (buff m)) by (pose proof (len_nonneg (buff m)); lia).
        reflexivity. }
    rewrite Hr, copy_onto_zeros. split; apply Hz; reflexivity.
Qed.

Lemma CmpWith_zero_iff_same_storage_witness :
  Clone {| buff := abcdef; pos := 4 |} = Some {| buff := abcdef; pos := 0 |}
  /\ CmpWith {| buff := abcdef; pos := 4 |} {| buff := abcdef; pos := 0 |} = 0
  /\ CmpWith {| buff := abcdef; pos := 0 |} {| buff := abcdef; pos := 4 |} = 0.
Proof.
  assert (H : Clone {| buff := abcdef; pos := 4 |} = Some {| buff := abcdef; pos := 0 |})
    by reflexivity.
  split; [exact H |].
  exact (proj2 (proj2 CmpWith_zero_iff_same_storage) _ _ H).
Defined.

Lemma Compare_swap a b : bytes.Compare b a = - bytes.Compare a b.
Proof.
  unfold bytes.Compare. rewrite (Compare_loop_swap a b).
  destruct (bytes.Compare_loop a b) as [r |]; simpl; [reflexivity |].
  destruct (Z.ltb_spec (len b) (len a)); destruct (Z.ltb_spec (len a) (len b)); lia.
Qed.

(** X4: [CmpWith] is antisymmetric: exchanging the two buffers negates
    the result. *)
Theorem CmpWith_antisymmetric :
  forall m other, CmpWith other m = - CmpWith m other.
Proof.
  intros m other. unfold CmpWith. apply Compare_swap.
Qed.

Lemma Compare_loop_prefix a : forall rest, bytes.Compare_loop a (a ++ rest) = None.
Proof.
  induction a as [| c a IH]; intros rest; simpl.
  - destruct rest; reflexivity.
  - rewrite Z.ltb_irrefl. apply IH.
Qed.

(** X5: a buffer whose bytes are a proper prefix of another's compares
    less: [CmpWith] is -1, and 1 the other way round. *)
Theorem CmpWith_proper_prefix_is_less :
  forall m other c rest,
    buff other = buff m ++ c :: rest ->
    CmpWith m other = -1 /\ CmpWith other m = 1.
Proof.
  intros m other c rest E.
  assert (H : CmpWith m other = -1).
  { unfold CmpWith, bytes.Compare. rewrite E, Compare_loop_prefix.
    rewrite len_app. unfold len at 3. simpl length.
    destruct (Z.ltb_spec (len (buff m)) (len (buff m) + Z.of_nat (S (length rest))));
      [reflexivity | lia]. }
  split; [exact H |].
  unfold CmpWith in *. rewrite Compare_swap, H. reflexivity.
Qed.

Lemma CmpWith_proper_prefix_is_less_witness :
  buff {| buff := abcabcdef; pos := 0 |}
    = buff {| buff := [x61; x62; x63]; pos := 3 |} ++ x61 :: [x62; x63; x64; x65; x66]
  /\ CmpWith {| buff := [x61; x62; x63]; pos := 3 |} {| buff := abcabcdef; pos := 0 |} = -1
  /\ CmpWith {| buff := abcabcdef; pos := 0 |} {| buff := [x61; x62; x63]; pos := 3 |} = 1.
Proof.
  assert (H : buff {| buff := abcabcdef; pos := 0 |}
              = buff {| buff := [x61; x62; x63]; pos := 3 |}
                  ++ x61 :: [x62; x63; x64; x65; x66]) by reflexivity.
  split; [exact H |].
  exact (CmpWith_proper_prefix_is_less _ _ _ _ H).
Defined.

Lemma Compare_cons c1 a c2 b :
  bytes.Compare (c1 :: a) (c2 :: b)
  = if Z_of_byte c1 <? Z_of_byte c2 then -1
    else if Z_of_byte c2 <? Z_of_byte c1 then 1
    else bytes.Compare a b.
Proof.
  unfold bytes.Compare. simpl bytes.Compare_loop.
  destruct (Z_of_byte c1 <? Z_of_byte c2); [reflexivity |].
  destruct (Z_of_byte c2 <? Z_of_byte c1); [reflexivity |].
  destruct (bytes.Compare_loop a b); [reflexivity |].
  unfold len. simpl length.
  destruct (Z.ltb_spec (Z.of_nat (S (length a))) (Z.of_nat (S (length b))));
    destruct (Z.ltb_spec (Z.of_nat (length a)) (Z.of_nat (length b))); try lia;
    destruct (Z.ltb_spec (Z.of_nat (S (length b))) (Z.of_nat (S (length a))));
    destruct (Z.ltb_spec (Z.of_nat (length b)) (Z.of_nat (length a))); try lia; reflexivity.
Qed.

Lemma Compare_nil_l b : bytes.Compare [] b <= 0.
Proof.
  unfold bytes.Compare. simpl. destruct (len [] <? len b); [lia |].
  destruct b; simpl.
  - change (len (@nil byte)) with 0. simpl. lia.
  - destruct (Z.ltb_spec (len (b :: b0)) (len (@nil byte))); [| lia].
    unfold len in *. simpl in *. lia.
Qed.

Lemma Compare_cons_nil c a : bytes.Compare (c :: a) [] = 1.
Proof.
  unfold bytes.Compare. simpl bytes.Compare_loop. unfold len. simpl length.
  destruct (Z.ltb_spec (Z.of_nat (S (length a))) (Z.of_nat 0)); [lia |].
  destruct (Z.ltb_spec (Z.of_nat 0) (Z.of_nat (S (length a)))); [reflexivity | lia].
Qed.

Lemma Compare_le_trans a : forall b c,
  bytes.Compare a b <= 0 -> bytes.Compare b c <= 0 -> bytes.Compare a c <= 0.
Proof.
  induction a as [| x a IH]; intros b c Hab Hbc; [apply Compare_nil_l |].
  destruct b as [| y b]; [rewrite Compare_cons_nil in Hab; lia |].
  destruct c as [| z c]; [rewrite Compare_cons_nil in Hbc; lia |].
  rewrite Compare_cons in *.
  destruct (Z.ltb_spec (Z_of_byte x) (Z_of_byte y));
    destruct (Z.ltb_spec (Z_of_byte y) (Z_of_byte x)); try lia;
    destruct (Z.ltb_spec (Z_of_byte y) (Z_of_byte z));
    destruct (Z.ltb_spec (Z_of_byte z) (Z_of_byte y)); try lia;
    destruct (Z.ltb_spec (Z_of_byte x) (Z_of_byte z));
    destruct (Z.ltb_spec (Z_of_byte z) (Z_of_byte x)); try lia.
  apply (IH b c); assumption.
Qed.

(** X6: [CmpWith] orders the buffers: if [m1] compares at most equal
    to [m2] and [m2] at most equal to [m3], then [m1] compares at most
    equal to [m3]. *)
Theorem CmpWith_transitive :
  forall m1 m2 m3,
    CmpWith m1 m2 <= 0 -> CmpWith m2 m3 <= 0 -> CmpWith m1 m3 <= 0.
Proof.
  intros m1 m2 m3. unfold CmpWith. apply Compare_le_trans.
Qed.

Lemma CmpWith_transitive_witness :
  CmpWith {| buff := [x61; x62; x63]; pos := 0 |} {| buff := abcabcdef; pos := 0 |} <= 0
  /\ CmpWith {| buff := abcabcdef; pos := 0 |} {| buff := abcdef; pos := 0 |} <= 0
  /\ CmpWith {| buff := [x61; x62; x63]; pos := 0 |} {| buff := abcdef; pos := 0 |} <= 0.
Proof.
  assert (H1 : CmpWith {| buff := [x61; x62; x63]; pos := 0 |}
                 {| buff := abcabcdef; pos := 0 |} <= 0) by by_evaluation.
  assert (H2 : CmpWith {| buff := abcabcdef; pos := 0 |}
                 {| buff := abcdef; pos := 0 |} <= 0) by by_evaluation.
  refine (conj H1 (conj H2 _)).
  exact (CmpWith_transitive _ _ _ H1 H2).
Defined.

(** ** More on seeking *)

Lemma wrap_above z : maxInt < z <= 2 * maxInt + 1 -> wrap z = z - 2 ^ 64.
Proof.
  unfold maxInt, wrap. intros H.
  replace (z + 2 ^ 63) with (z - 2 ^ 63 + 1 * 2 ^ 64) by lia.
  rewrite Z_mod_plus_full, Z.mod_small; lia.
Qed.

(** X7: [Seek] returns [ErrWhenceUnknown] exactly when the whence is
    none of start, current and end, whatever the offset;
    [ErrSeekNegative] exactly when the whence is valid and the target
    is negative; and every failure returns the position -1. *)
Theorem Seek_error_of_whence_and_sign :
  forall m offset whence,
    (snd (Seek m offset whence) = Some ErrWhenceUnknown
     <-> whence <> SeekStart /\ whence <> SeekCurrent /\ whence <> SeekEnd)
    /\ (snd (Seek m offset whence) = Some ErrSeekNegative
        <-> exists target, seekTarget m offset whence = Some target /\ target < 0)
    /\ (snd (Seek m offset whence) <> None -> snd (fst (Seek m offset whence)) = -1).
Proof.
  intros m offset whence.
  assert (Hw : seekTarget m offset whence = None
               <-> whence <> SeekStart /\ whence <> SeekCurrent /\ whence <> SeekEnd).
  { unfold seekTarget.
    destruct (Z.eqb_spec whence SeekStart); [split; [discriminate | tauto] |].
    destruct (Z.eqb_spec whence SeekCurrent); [split; [discriminate | tauto] |].
    destruct (Z.eqb_spec whence SeekEnd); [split; [discriminate | tauto] |].
    tauto. }
  unfold Seek, posOverflow.
  destruct (seekTarget m offset whence) as [t |] eqn:Et.
  - destruct (Z.ltb_spec t 0); [| destruct (Z.leb_spec (len (buff m)) t)]; simpl.
    + split; [split; [discriminate | intros H'; apply Hw in H'; discriminate] |].
      split; [| reflexivity]. split; [eauto | reflexivity].
    + split; [split; [discriminate | intros H'; apply Hw in H'; discriminate] |].
      split; [| reflexivity].
      split; [discriminate | intros (t' & E & Hl); inversion E; lia].
    + split; [split; [discriminate | intros H'; apply Hw in H'; discriminate] |].
      split; [| congruence].
      split; [discriminate | intros (t' & E & Hl); inversion E; lia].
  - simpl. split; [split; [intros _; apply Hw; reflexivity | reflexivity] |].
    split; [| reflexivity].
    split; [discriminate | intros (t' & E & _); discriminate].
Qed.

(** X8: [SeekToEnd] never succeeds: it returns -1 with
    [ErrSeekOverflow] and leaves the buffer as it is.  [SeekToStart]
    succeeds, with the cursor at 0, exactly on a non-empty buffer. *)
Theorem SeekToEnd_always_overflows :
  (forall m, representable m -> SeekToEnd m = (m, -1, Some ErrSeekOverflow))
  /\ (forall m, buff m <> [] -> SeekToStart m = ({| buff := buff m; pos := 0 |}, 0, None))
  /\ (forall m, buff m = [] -> SeekToStart m = (m, -1, Some ErrSeekOverflow)).
Proof.
  split; [| split].
  - intros m Hb. unfold representable in Hb.
    unfold SeekToEnd, Seek, seekTarget, posOverflow. simpl.
    rewrite wrap_fits by int_range.
    pose proof (len_nonneg (buff m)).
    destruct (Z.ltb_spec (len (buff m)) 0); [lia |].
    destruct (Z.leb_spec (len (buff m)) (len (buff m))); [reflexivity | lia].
  - intros m Hn. unfold SeekToStart, Seek, seekTarget, posOverflow.
    change (int_of_int64 0) with 0. cbn [Z.eqb SeekStart Z.ltb Z.compare].
    change (int64_of_int 0) with 0.
    destruct (Z.leb_spec (len (buff m)) 0) as [H | H]; [| reflexivity].
    exfalso. apply Hn. apply len_zero_nil. pose proof (len_nonneg (buff m)). lia.
  - intros m He. unfold SeekToStart, Seek, seekTarget, posOverflow.
    change (int_of_int64 0) with 0. cbn [Z.eqb SeekStart Z.ltb Z.compare].
    rewrite He. reflexivity.
Qed.

Lemma SeekToEnd_always_overflows_witness :
  representable {| buff := abcdef; pos := 2 |}
  /\ SeekToEnd {| buff := abcdef; pos := 2 |}
     = ({| buff := abcdef; pos := 2 |}, -1, Some ErrSeekOverflow).
Proof.
  assert (H : representable {| buff := abcdef; pos := 2 |}) by by_evaluation.
  split; [exact H |].
  exact (proj1 SeekToEnd_always_overflows _ H).
Defined.

(** X9: a seek from the cursor or from the end whose offset takes the
    sum past the largest [int] wraps around: it is reported as
    [ErrSeekNegative], not as an overflow, and the cursor stays. *)
Theorem Seek_sum_past_maxInt_is_negative :
  (forall m offset,
      well_formed m -> fits offset -> maxInt < pos m + offset ->
      SeekFromCurrent m offset = (m, -1, Some ErrSeekNegative))
  /\ (forall m offset,
         representable m -> fits offset -> maxInt < len (buff m) + offset ->
         SeekFromEnd m offset = (m, -1, Some ErrSeekNegative)).
Proof.
  split.
  - intros m offset [Hb Hc] Ho Hs. unfold representable, cursor_ok in *.
    unfold SeekFromCurrent, Seek, seekTarget, int_of_int64. simpl.
    rewrite (wrap_fits offset Ho). rewrite wrap_above by int_range.
    destruct (Z.ltb_spec (offset + pos m - 2 ^ 64) 0); [reflexivity |].
    unfold fits, maxInt in *. lia.
  - intros m offset Hb Ho Hs. unfold representable in *.
    unfold SeekFromEnd, Seek, seekTarget, int_of_int64. simpl.
    rewrite (wrap_fits offset Ho). rewrite wrap_above by int_range.
    destruct (Z.ltb_spec (offset + len (buff m) - 2 ^ 64) 0); [reflexivity |].
    unfold fits, maxInt in *. lia.
Qed.

Lemma Seek_sum_past_maxInt_is_negative_witness :
  representable {| buff := abcdef; pos := 2 |}
  /\ fits maxInt
  /\ maxInt < len (buff {| buff := abcdef; pos := 2 |}) + maxInt
  /\ SeekFromEnd {| buff := abcdef; pos := 2 |} maxInt
     = ({| buff := abcdef; pos := 2 |}, -1, Some ErrSeekNegative).
Proof.
  assert (H1 : representable {| buff := abcdef; pos := 2 |}) by by_evaluation.
  assert (H2 : fits maxInt) by by_evaluation.
  assert (H3 : maxInt < len (buff {| buff := abcdef; pos := 2 |}) + maxInt) by reflexivity.
  refine (conj H1 (conj H2 (conj H3 _))).
  exact (proj2 Seek_sum_past_maxInt_is_negative _ _ H1 H2 H3).
Defined.

Lemma Seek_error_of_whence_and_sign_witness :
  snd (Seek {| buff := abcdef; pos := 2 |} 0 7) <> None
  /\ snd (fst (Seek {| buff := abcdef; pos := 2 |} 0 7)) = -1
  /\ snd (Seek {| buff := abcdef; pos := 2 |} 0 7) = Some ErrWhenceUnknown.
Proof.
  assert (H : snd (Seek {| buff := abcdef; pos := 2 |} 0 7) <> None) by discriminate.
  split; [exact H |]. split; [| reflexivity].
  exact (proj2 (proj2 (Seek_error_of_whence_and_sign {| buff := abcdef; pos := 2 |} 0 7)) H).
Defined.

(** ** Offsets of the positional calls *)

Lemma copy_prefix (p b : list byte) (ps : Z) :
  0 <= ps -> len p <= len b - ps ->
  copy p (skipn (Z.to_nat ps) b) = firstn (length p) (skipn (Z.to_nat ps) b).
Proof.
  intros H0 H. unfold len in *.
  apply copy_long. rewrite length_skipn. lia.
Qed.

Lemma ReadAt_in_range m p off :
  representable m -> 0 <= off < len (buff m) ->
  ReadAt m p off =
    Some (m, copy p (skipn (Z.to_nat off) (buff m)),
          Z.min (len (buff m) - off) (len p),
          if Z.min (len (buff m) - off) (len p) <? len p then Some EOF else None).
Proof.
  intros Hb Ho. unfold representable in Hb.
  unfold ReadAt, posOverflow, int_of_int64.
  rewrite (wrap_fits off) by int_range.
  destruct (Z.ltb_spec off 0); [lia |].
  destruct (Z.leb_spec (len (buff m)) off); [lia |].
  rewrite readFromPos_eq by lia.
  destruct (Z.ltb_spec off (len (buff m))); [reflexivity | lia].
Qed.

(** X10: [ReadAt] fails with [ErrOffsetNegative] on a negative offset
    and with [ErrOffsetOverflow] on an offset at or past the length,
    returning -1 and leaving the destination as it was; at an offset
    inside the storage with enough bytes left it fills the destination
    with the bytes at that offset and returns its length with no
    error. *)
Theorem ReadAt_offset_errors_and_full_read :
  forall m p off,
    representable m -> fits off ->
    (off < 0 -> ReadAt m p off = Some (m, p, -1, Some ErrOffsetNegative))
    /\ (len (buff m) <= off -> ReadAt m p off = Some (m, p, -1, Some ErrOffsetOverflow))
    /\ (0 <= off < len (buff m) -> len p <= len (buff m) - off ->
        ReadAt m p off =
          Some (m, firstn (length p) (skipn (Z.to_nat off) (buff m)), len p, None)).
Proof.
  intros m p off Hb Ho. pose proof (len_nonneg (buff m)) as Hl.
  split; [| split].
  - intros H. unfold ReadAt, int_of_int64. rewrite (wrap_fits off Ho).
    destruct (Z.ltb_spec off 0); [reflexivity | lia].
  - intros H. unfold ReadAt, posOverflow, int_of_int64. rewrite (wrap_fits off Ho).
    destruct (Z.ltb_spec off 0); [lia |].
    destruct (Z.leb_spec (len (buff m)) off); [reflexivity | lia].
  - intros H Hp. rewrite ReadAt_in_range by assumption.
    rewrite Z.min_r by lia. rewrite Z.ltb_irrefl.
    rewrite copy_prefix by lia. reflexivity.
Qed.

Lemma ReadAt_offset_errors_and_full_read_witness :
  representable {| buff := abcdef; pos := 5 |}
  /\ fits 1
  /\ 0 <= 1 < len (buff {| buff := abcdef; pos := 5 |})
  /\ len [x00; x00] <= len (buff {| buff := abcdef; pos := 5 |}) - 1
  /\ ReadAt {| buff := abcdef; pos := 5 |} [x00; x00] 1
     = Some ({| buff := abcdef; pos := 5 |}, [x62; x63], 2, None).
Proof.
  assert (H1 : representable {| buff := abcdef; pos := 5 |}) by by_evaluation.
  assert (H2 : fits 1) by by_evaluation.
  assert (H3 : 0 <= 1 < len (buff {| buff := abcdef; pos := 5 |})) by by_evaluation.
  assert (H4 : len [x00; x00] <= len (buff {| buff := abcdef; pos := 5 |}) - 1)
    by by_evaluation.
  refine (conj H1 (conj H2 (conj H3 (conj H4 _)))).
  exact (proj2 (proj2 (ReadAt_offset_errors_and_full_read _ [x00; x00] 1 H1 H2)) H3 H4).
Defined.

(** X11: [WriteAt] fails with [ErrOffsetNegative] on a negative offset
    and with [ErrOffsetOverflow] on an offset at or past the length,
    the length itself included, returning -1 and writing nothing; so
    on an empty buffer every [WriteAt] fails. *)
Theorem WriteAt_offset_errors :
  (forall m p off, off < 0 -> WriteAt m p off = Some (m, -1, Some ErrOffsetNegative))
  /\ (forall m p off,
         fits off -> len (buff m) <= off ->
         WriteAt m p off = Some (m, -1, Some ErrOffsetOverflow))
  /\ (forall m p off,
         fits off -> buff m = [] ->
         exists e, WriteAt m p off = Some (m, -1, Some e)).
Proof.
  assert (H2 : forall m p off,
             fits off -> len (buff m) <= off ->
             WriteAt m p off = Some (m, -1, Some ErrOffsetOverflow)).
  { intros m p off Ho H. pose proof (len_nonneg (buff m)).
    unfold WriteAt, posOverflow, int_of_int64. rewrite (wrap_fits off Ho).
    destruct (Z.ltb_spec off 0); [lia |].
    destruct (Z.leb_spec (len (buff m)) off); [reflexivity | lia]. }
  split; [| split; [exact H2 |]].
  - intros m p off H. unfold WriteAt.
    destruct (Z.ltb_spec off 0); [reflexivity | lia].
  - intros m p off Ho He.
    destruct (Z.ltb_spec off 0) as [Hn | Hn].
    + eexists. unfold WriteAt. destruct (Z.ltb_spec off 0); [reflexivity | lia].
    + eexists. apply H2; [exact Ho |]. rewrite He. change (len (@nil byte)) with 0. lia.
Qed.

Lemma WriteAt_offset_errors_witness :
  fits 6
  /\ len (buff {| buff := abcdef; pos := 6 |}) <= 6
  /\ WriteAt {| buff := abcdef; pos := 6 |} abcdef 6
     = Some ({| buff := abcdef; pos := 6 |}, -1, Some ErrOffsetOverflow).
Proof.
  assert (H1 : fits 6) by by_evaluation.
  assert (H2 : len (buff {| buff := abcdef; pos := 6 |}) <= 6) by by_evaluation.
  refine (conj H1 (conj H2 _)).
  exact (proj1 (proj2 WriteAt_offset_errors) _ abcdef 6 H1 H2).
Defined.

(** X12: [ByteAt(i)] is indexing: for [0 <= i < length(storage)] it
    returns the byte at index [i] and no error; below 0 it fails with
    [ErrOffsetNegative] and from the length on with
    [ErrOffsetOverflow]; the buffer is returned as it was. *)
Theorem ByteAt_is_indexing :
  forall m i,
    representable m -> fits i ->
    (0 <= i < len (buff m) ->
     exists c, nth_error (buff m) (Z.to_nat i) = Some c
               /\ ByteAt m i = Some (m, c, None))
    /\ (i < 0 -> ByteAt m i = Some (m, x00, Some ErrOffsetNegative))
    /\ (len (buff m) <= i -> ByteAt m i = Some (m, x00, Some ErrOffsetOverflow)).
Proof.
  intros m i Hb Hi. pose proof (len_nonneg (buff m)) as Hl.
  unfold ByteAt, int64_of_int. rewrite make_1, (wrap_fits i Hi).
  split; [| split].
  - intros H. destruct (nth_error_in_range (buff m) i H) as [c Ec].
    exists c. split; [exact Ec |].
    rewrite ReadAt_in_range by assumption.
    change (len [x00]) with 1. rewrite Z.min_r by lia. simpl.
    rewrite <- hd_error_skipn in Ec.
    destruct (skipn (Z.to_nat i) (buff m)) as [| c' l]; [discriminate |].
    simpl in Ec. inversion Ec. subst. rewrite copy_one. reflexivity.
  - intros H. unfold ReadAt, int_of_int64. rewrite (wrap_fits i Hi).
    destruct (Z.ltb_spec i 0); [reflexivity | lia].
  - intros H. unfold ReadAt, posOverflow, int_of_int64. rewrite (wrap_fits i Hi).
    destruct (Z.ltb_spec i 0); [lia |].
    destruct (Z.leb_spec (len (buff m)) i); [reflexivity | lia].
Qed.

Lemma ByteAt_is_indexing_witness :
  representable {| buff := abcdef; pos := 0 |}
  /\ fits 4
  /\ 0 <= 4 < len (buff {| buff := abcdef; pos := 0 |})
  /\ exists c, nth_error (buff {| buff := abcdef; pos := 0 |}) (Z.to_nat 4) = Some c
               /\ ByteAt {| buff := abcdef; pos := 0 |} 4
                  = Some ({| buff := abcdef; pos := 0 |}, c, None).
Proof.
  assert (H1 : representable {| buff := abcdef; pos := 0 |}) by by_evaluation.
  assert (H2 : fits 4) by by_evaluation.
  assert (H3 : 0 <= 4 < len (buff {| buff := abcdef; pos := 0 |})) by by_evaluation.
  refine (conj H1 (conj H2 (conj H3 _))).
  exact (proj1 (ByteAt_is_indexing _ 4 H1 H2) H3).
Defined.

(** ** Writes and reads that meet *)

(** The storage after a write, in one piece: [src] laid over the
    storage at [ps]. *)
Lemma spec_storage_overlay storage src ps :
  0 <= ps <= len storage ->
  spec_storage storage src ps
  = firstn (Z.to_nat ps) storage ++ src ++ skipn (Z.to_nat (ps + len src)) storage.
Proof.
  intros H. unfold spec_storage, spec_overlap. pose proof (len_nonneg src).
  destruct (Z.le_gt_cases (len src) (len storage - ps)) as [Hc | Hc].
  - rewrite Z.min_r by lia.
    rewrite (firstn_len src (len src)), (skipn_len src (len src)) by lia.
    rewrite app_nil_r. reflexivity.
  - rewrite Z.min_l by lia.
    replace (ps + (len storage - ps)) with (len storage) by lia.
    rewrite (skipn_len storage (len storage)), (skipn_len storage (ps + len src)) by lia.
    simpl. rewrite firstn_skipn, app_nil_r. reflexivity.
Qed.

Lemma Write_eq m p :
  representable m -> cursor_ok m -> pos m + len p <= maxInt ->
  Write m p =
    Some ({| buff := spec_storage (buff m) p (pos m);
             pos := pos m + spec_appended (buff m) p (pos m) |}, len p, None).
Proof.
  intros Hb Hc Hs. unfold representable, cursor_ok in *.
  unfold Write. rewrite writeFromPos_eq by int_range.
  destruct (Z.leb_spec (pos m + len p) maxInt); [| lia].
  pose proof (spec_storage_fits (buff m) p (pos m) Hb Hc Hs) as Hf.
  rewrite (spec_storage_len (buff m) p (pos m) Hc) in Hf.
  pose proof (spec_appended_nonneg (buff m) p (pos m)) as Ha.
  simpl pos. rewrite wrap_fits by int_range. reflexivity.
Qed.

Lemma WriteAt_storage m p off :
  representable m -> cursor_ok m -> 0 <= off < len (buff m) -> off + len p <= maxInt ->
  exists cursor,
    WriteAt m p off =
      Some ({| buff := spec_storage (buff m) p off; pos := cursor |}, len p, None).
Proof.
  intros Hb Hc Ho Hs. unfold representable, cursor_ok in *.
  unfold WriteAt, posOverflow, int_of_int64.
  rewrite (wrap_fits off) by int_range.
  destruct (Z.ltb_spec off 0); [lia |].
  destruct (Z.leb_spec (len (buff m)) off); [lia |].
  rewrite writeFromPos_eq by int_range.
  destruct (Z.leb_spec (off + len p) maxInt); [| lia].
  eexists. reflexivity.
Qed.

Lemma Write_at_end m p :
  representable m -> pos m = len (buff m) -> len (buff m) + len p <= maxInt ->
  Write m p = Some ({| buff := buff m ++ p; pos := len (buff m) + len p |}, len p, None).
Proof.
  intros Hb Hp Hs. pose proof (len_nonneg (buff m)) as Hl. pose proof (len_nonneg p).
  rewrite Write_eq; [| exact Hb | unfold cursor_ok; lia | lia].
  rewrite spec_storage_overlay by lia.
  unfold spec_appended, spec_overlap. rewrite Hp.
  rewrite (firstn_len (buff m) (len (buff m))) by lia.
  rewrite (skipn_len (buff m)) by lia. rewrite app_nil_r.
  rewrite Z.min_l by lia. repeat f_equal. lia.
Qed.

Lemma Read_full m p :
  well_formed m -> pos m < len (buff m) -> len p <= len (buff m) - pos m ->
  Read m p =
    Some ({| buff := buff m; pos := pos m + len p |},
          firstn (length p) (skipn (Z.to_nat (pos m)) (buff m)), len p, None).
Proof.
  intros [Hb Hc] Hp Ha. unfold representable, cursor_ok in *.
  pose proof (len_nonneg p).
  unfold Read. rewrite readFromPos_eq by lia.
  destruct (Z.ltb_spec (pos m) (len (buff m))); [| lia].
  cbv zeta. rewrite Z.min_r by lia. rewrite Z.ltb_irrefl.
  rewrite copy_prefix by lia. rewrite wrap_fits by int_range. reflexivity.
Qed.

(** X13: a [Read] into a destination no longer than the bytes left
    after the cursor fills it with the bytes at the cursor, advances
    the cursor by its length and returns that length with no error. *)
Theorem Read_fills_destination :
  forall m p,
    well_formed m -> pos m < len (buff m) -> len p <= len (buff m) - pos m ->
    Read m p =
      Some ({| buff := buff m; pos := pos m + len p |},
            firstn (length p) (skipn (Z.to_nat (pos m)) (buff m)), len p, None).
Proof. exact Read_full. Qed.

Lemma Read_fills_destination_witness :
  well_formed {| buff := abcdef; pos := 1 |}
  /\ pos {| buff := abcdef; pos := 1 |} < len (buff {| buff := abcdef; pos := 1 |})
  /\ len [x00; x00; x00]
     <= len (buff {| buff := abcdef; pos := 1 |}) - pos {| buff := abcdef; pos := 1 |}
  /\ Read {| buff := abcdef; pos := 1 |} [x00; x00; x00]
     = Some ({| buff := abcdef; pos := 4 |}, [x62; x63; x64], 3, None).
Proof.
  assert (H1 : well_formed {| buff := abcdef; pos := 1 |}) by by_evaluation.
  assert (H2 : pos {| buff := abcdef; pos := 1 |}
               < len (buff {| buff := abcdef; pos := 1 |})) by by_evaluation.
  assert (H3 : len [x00; x00; x00]
               <= len (buff {| buff := abcdef; pos := 1 |})
                  - pos {| buff := abcdef; pos := 1 |}) by by_evaluation.
  refine (conj H1 (conj H2 (conj H3 _))).
  exact (Read_fills_destination _ [x00; x00; x00] H1 H2 H3).
Defined.

(** X14: with the cursor at the end, [Write] is an append that leaves
    the cursor at the new end, and two such writes in a row leave the
    buffer one write of the concatenation leaves. *)
Theorem Write_at_end_appends :
  forall m p q,
    representable m -> pos m = len (buff m) ->
    len (buff m) + len p + len q <= maxInt ->
    Write m p = Some ({| buff := buff m ++ p; pos := len (buff m) + len p |}, len p, None)
    /\ Write {| buff := buff m ++ p; pos := len (buff m) + len p |} q
       = Some ({| buff := buff m ++ p ++ q; pos := len (buff m) + len p + len q |},
               len q, None)
    /\ Write m (p ++ q)
       = Some ({| buff := buff m ++ p ++ q; pos := len (buff m) + len p + len q |},
               len p + len q, None).
Proof.
  intros m p q Hb Hp Hs.
  pose proof (len_nonneg (buff m)). pose proof (len_nonneg p). pose proof (len_nonneg q).
  unfold representable in Hb.
  split; [apply Write_at_end; [exact Hb | exact Hp | lia] |]. split.
  - rewrite Write_at_end; simpl; rewrite ?len_app; unfold representable; simpl;
      rewrite ?len_app; try lia.
    rewrite <- app_assoc. reflexivity.
  - rewrite Write_at_end; rewrite ?len_app; try assumption; try lia.
    rewrite Z.add_assoc. reflexivity.
Qed.

Lemma Write_at_end_appends_witness :
  representable {| buff := [x61]; pos := 1 |}
  /\ pos {| buff := [x61]; pos := 1 |} = len (buff {| buff := [x61]; pos := 1 |})
  /\ len (buff {| buff := [x61]; pos := 1 |}) + len [x62; x63] + len [x64; x65; x66]
     <= maxInt
  /\ Write {| buff := [x61]; pos := 1 |} ([x62; x63] ++ [x64; x65; x66])
     = Some ({| buff := abcdef; pos := 6 |}, 5, None).
Proof.
  assert (H1 : representable {| buff := [x61]; pos := 1 |}) by by_evaluation.
  assert (H2 : pos {| buff := [x61]; pos := 1 |}
               = len (buff {| buff := [x61]; pos := 1 |})) by reflexivity.
  assert (H3 : len (buff {| buff := [x61]; pos := 1 |}) + len [x62; x63]
               + len [x64; x65; x66] <= maxInt) by by_evaluation.
  refine (conj H1 (conj H2 (conj H3 _))).
  exact (proj2 (proj2 (Write_at_end_appends _ [x62; x63] [x64; x65; x66] H1 H2 H3))).
Defined.

(** X15: a [Write] that fits inside the storage changes neither the
    length nor the cursor, so the next [Write] lands on the same
    bytes: after two writes of the same length only the second
    shows. *)
Theorem Write_inside_keeps_cursor :
  forall m p q,
    well_formed m -> pos m + len p <= len (buff m) -> len q = len p ->
    exists m1,
      Write m p = Some (m1, len p, None)
      /\ pos m1 = pos m /\ len (buff m1) = len (buff m)
      /\ buff m1 = firstn (Z.to_nat (pos m)) (buff m) ++ p
                     ++ skipn (Z.to_nat (pos m + len p)) (buff m)
      /\ Write m1 q = Write m q.
Proof.
  intros m p q [Hb Hc] Hs Hq. unfold representable, cursor_ok in *.
  pose proof (len_nonneg p) as Hp0.
  assert (Ha : forall r, len r = len p -> spec_appended (buff m) r (pos m) = 0).
  { intros r Hr. unfold spec_appended, spec_overlap. lia. }
  assert (Hw : forall r, len r = len p ->
             Write m r = Some ({| buff := firstn (Z.to_nat (pos m)) (buff m) ++ r
                                           ++ skipn (Z.to_nat (pos m + len r)) (buff m);
                                  pos := pos m |}, len r, None)).
  { intros r Hr. rewrite Write_eq; [| exact Hb | exact Hc | lia].
    rewrite spec_storage_overlay by lia. rewrite (Ha r Hr), Z.add_0_r. reflexivity. }
  eexists. split; [apply Hw; reflexivity |]. simpl.
  assert (Hl : len (firstn (Z.to_nat (pos m)) (buff m) ++ p
                      ++ skipn (Z.to_nat (pos m + len p)) (buff m)) = len (buff m)).
  { rewrite !len_app, len_firstn, len_skipn by lia. lia. }
  split; [reflexivity |]. split; [exact Hl |]. split; [reflexivity |].
  rewrite (Hw q Hq).
  rewrite Write_eq; simpl; unfold representable, cursor_ok; simpl; rewrite ?Hl; try lia.
  rewrite spec_storage_overlay by (rewrite Hl; lia).
  unfold spec_appended, spec_overlap. rewrite Hl.
  replace (len q - Z.min (len (buff m) - pos m) (len q)) with 0 by lia.
  rewrite Z.add_0_r.
  set (front := firstn (Z.to_nat (pos m)) (buff m)).
  assert (Hf : length front = Z.to_nat (pos m)).
  { unfold front. rewrite length_firstn. unfold len in *. lia. }
  assert (E1 : firstn (Z.to_nat (pos m))
                 (front ++ p ++ skipn (Z.to_nat (pos m + len p)) (buff m)) = front).
  { rewrite firstn_app, Hf, Nat.sub_diag. simpl.
    rewrite <- Hf, firstn_all. apply app_nil_r. }
  assert (E2 : skipn (Z.to_nat (pos m + len q))
                 (front ++ p ++ skipn (Z.to_nat (pos m + len p)) (buff m))
               = skipn (Z.to_nat (pos m + len q)) (buff m)).
  { rewrite app_assoc, skipn_app.
    assert (Hfp : length (front ++ p) = Z.to_nat (pos m + len q)).
    { rewrite length_app, Hf. unfold len in *. lia. }
    rewrite <- Hfp, skipn_all, Nat.sub_diag. simpl. rewrite Hfp, Hq. reflexivity. }
  rewrite E1, E2. reflexivity.
Qed.

Lemma Write_inside_keeps_cursor_witness :
  well_formed {| buff := abcdef; pos := 3 |}
  /\ pos {| buff := abcdef; pos := 3 |} + len [x78; x79]
     <= len (buff {| buff := abcdef; pos := 3 |})
  /\ len [x61; x62] = len [x78; x79]
  /\ exists m1,
      Write {| buff := abcdef; pos := 3 |} [x78; x79] = Some (m1, len [x78; x79], None)
      /\ pos m1 = pos {| buff := abcdef; pos := 3 |}
      /\ len (buff m1) = len (buff {| buff := abcdef; pos := 3 |})
      /\ buff m1 = firstn (Z.to_nat (pos {| buff := abcdef; pos := 3 |}))
                     (buff {| buff := abcdef; pos := 3 |}) ++ [x78; x79]
                     ++ skipn (Z.to_nat (pos {| buff := abcdef; pos := 3 |} + len [x78; x79]))
                          (buff {| buff := abcdef; pos := 3 |})
      /\ Write m1 [x61; x62] = Write {| buff := abcdef; pos := 3 |} [x61; x62].
Proof.
  assert (H1 : well_formed {| buff := abcdef; pos := 3 |}) by by_evaluation.
  assert (H2 : pos {| buff := abcdef; pos := 3 |} + len [x78; x79]
               <= len (buff {| buff := abcdef; pos := 3 |})) by by_evaluation.
  assert (H3 : len [x61; x62] = len [x78; x79]) by reflexivity.
  refine (conj H1 (conj H2 (conj H3 _))).
  exact (Write_inside_keeps_cursor _ [x78; x79] [x61; x62] H1 H2 H3).
Defined.

(** X16: what is written into an empty buffer is read back after a
    seek to the start: for a non-empty [s], [Write(s)] on
    [NewByteBuffer(0)] stores [s] with the cursor at its end,
    [SeekToStart] succeeds, and a [Read] into a destination of the
    same length returns [s] whole with no error; [Bytes] is [s]. *)
Theorem Write_Seek_Read_round_trip :
  forall s p,
    s <> [] -> len s <= maxInt -> len p = len s ->
    NewByteBuffer 0 = Some {| buff := []; pos := 0 |}
    /\ Write {| buff := []; pos := 0 |} s = Some ({| buff := s; pos := len s |}, len s, None)
    /\ SeekToStart {| buff := s; pos := len s |} = ({| buff := s; pos := 0 |}, 0, None)
    /\ Read {| buff := s; pos := 0 |} p = Some ({| buff := s; pos := len s |}, s, len s, None)
    /\ Bytes {| buff := s; pos := len s |} = Some s.
Proof.
  intros s p Hn Hs Hp. pose proof (len_nonneg s) as H0.
  assert (Hpos : 0 < len s).
  { destruct (Z.eq_dec (len s) 0) as [E | E]; [| lia].
    apply len_zero_nil in E. contradiction. }
  split; [reflexivity |]. split; [| split; [| split]].
  - rewrite Write_at_end; [reflexivity | | reflexivity |];
      unfold representable; simpl; change (len (@nil byte)) with 0; int_range.
  - unfold SeekToStart, Seek, seekTarget, posOverflow.
    change (int_of_int64 0) with 0. cbn [Z.eqb SeekStart Z.ltb Z.compare buff].
    destruct (Z.leb_spec (len s) 0); [lia | reflexivity].
  - rewrite Read_full; simpl; unfold well_formed, representable, cursor_ok; simpl; try lia.
    rewrite Hp. unfold len in Hp. apply Nat2Z.inj in Hp. rewrite Hp, firstn_all.
    reflexivity.
  - unfold Bytes. simpl. rewrite make_len by exact Hs.
    rewrite copy_onto_zeros. reflexivity.
Qed.

Lemma Write_Seek_Read_round_trip_witness :
  abcdef <> []
  /\ len abcdef <= maxInt
  /\ len abcxyf = len abcdef
  /\ Read {| buff := abcdef; pos := 0 |} abcxyf
     = Some ({| buff := abcdef; pos := len abcdef |}, abcdef, len abcdef, None).
Proof.
  assert (H1 : abcdef <> []) by discriminate.
  assert (H2 : len abcdef <= maxInt) by by_evaluation.
  assert (H3 : len abcxyf = len abcdef) by reflexivity.
  refine (conj H1 (conj H2 (conj H3 _))).
  exact (proj1 (proj2 (proj2 (proj2 (Write_Seek_Read_round_trip abcdef abcxyf H1 H2 H3))))).
Defined.

(** X17: what [WriteAt] writes at an offset, [ReadAt] reads back at
    that offset: after [WriteAt(p, off)] a [ReadAt] at [off] into a
    destination of the length of [p] returns [p] with no error, and
    the bytes before [off] and from [off + len(p)] on are the old
    ones. *)
Theorem WriteAt_ReadAt_round_trip :
  forall m p dst off,
    well_formed m -> 0 <= off < len (buff m) -> off + len p <= maxInt ->
    len dst = len p ->
    exists m1,
      WriteAt m p off = Some (m1, len p, None)
      /\ ReadAt m1 dst off = Some (m1, p, len p, None)
      /\ firstn (Z.to_nat off) (buff m1) = firstn (Z.to_nat off) (buff m)
      /\ skipn (Z.to_nat (off + len p)) (buff m1)
         = skipn (Z.to_nat (off + len p)) (buff m).
Proof.
  intros m p dst off [Hb Hc] Ho Hs Hd. unfold representable, cursor_ok in *.
  pose proof (len_nonneg p) as Hp0.
  assert (Hoff : 0 <= off <= len (buff m)) by lia.
  destruct (WriteAt_storage m p off Hb Hc Ho Hs) as (cursor & Ew).
  exists {| buff := spec_storage (buff m) p off; pos := cursor |}.
  split; [exact Ew |]. simpl.
  rewrite spec_storage_overlay by lia.
  set (front := firstn (Z.to_nat off) (buff m)).
  set (back := skipn (Z.to_nat (off + len p)) (buff m)).
  assert (Hf : length front = Z.to_nat off).
  { unfold front. rewrite length_firstn. unfold len in *. lia. }
  assert (Hfp : length (front ++ p) = Z.to_nat (off + len p)).
  { rewrite length_app, Hf. unfold len in *. lia. }
  assert (Hl : len (front ++ p ++ back) = len (buff m) + spec_appended (buff m) p off).
  { rewrite <- spec_storage_len by lia. rewrite spec_storage_overlay by lia. reflexivity. }
  pose proof (spec_appended_nonneg (buff m) p off) as Ha.
  pose proof (spec_storage_fits (buff m) p off Hb Hoff Hs) as Hfit.
  rewrite spec_storage_overlay in Hfit by lia. fold front back in Hfit.
  assert (E1 : skipn (Z.to_nat off) (front ++ p ++ back) = p ++ back).
  { rewrite skipn_app, Hf, Nat.sub_diag. simpl.
    rewrite <- Hf, skipn_all. reflexivity. }
  split; [| split].
  - rewrite ReadAt_in_range; simpl; unfold representable; simpl; try lia.
    rewrite E1.
    assert (Hdl : length dst = length p) by (unfold len in Hd; lia).
    assert (Hm : Z.min (len (front ++ p ++ back) - off) (len dst) = len p).
    { rewrite Hl, Hd. unfold spec_appended, spec_overlap in *. lia. }
    rewrite Hm, Hd, Z.ltb_irrefl.
    unfold copy. rewrite length_app, Hdl, Nat.min_l by lia.
    rewrite firstn_app, Nat.sub_diag, firstn_all. simpl.
    rewrite <- Hdl, skipn_all, !app_nil_r. reflexivity.
  - rewrite firstn_app, Hf, Nat.sub_diag. simpl.
    rewrite <- Hf, firstn_all. apply app_nil_r.
  - rewrite app_assoc, skipn_app, <- Hfp, skipn_all, Nat.sub_diag. reflexivity.
Qed.

Lemma WriteAt_ReadAt_round_trip_witness :
  well_formed {| buff := abcdef; pos := 0 |}
  /\ 0 <= 4 < len (buff {| buff := abcdef; pos := 0 |})
  /\ 4 + len [x78; x79; x61] <= maxInt
  /\ len [x00; x00; x00] = len [x78; x79; x61]
  /\ exists m1,
      WriteAt {| buff := abcdef; pos := 0 |} [x78; x79; x61] 4
        = Some (m1, len [x78; x79; x61], None)
      /\ ReadAt m1 [x00; x00; x00] 4 = Some (m1, [x78; x79; x61], len [x78; x79; x61], None)
      /\ firstn (Z.to_nat 4) (buff m1)
         = firstn (Z.to_nat 4) (buff {| buff := abcdef; pos := 0 |})
      /\ skipn (Z.to_nat (4 + len [x78; x79; x61])) (buff m1)
         = skipn (Z.to_nat (4 + len [x78; x79; x61])) (buff {| buff := abcdef; pos := 0 |}).
Proof.
  assert (H1 : well_formed {| buff := abcdef; pos := 0 |}) by by_evaluation.
  assert (H2 : 0 <= 4 < len (buff {| buff := abcdef; pos := 0 |})) by by_evaluation.
  assert (H3 : 4 + len [x78; x79; x61] <= maxInt) by by_evaluation.
  assert (H4 : len [x00; x00; x00] = len [x78; x79; x61]) by reflexivity.
  refine (conj H1 (conj H2 (conj H3 (conj H4 _)))).
  exact (WriteAt_ReadAt_round_trip _ [x78; x79; x61] [x00; x00; x00] 4 H1 H2 H3 H4).
Defined.

(** ** Byte by byte *)

Lemma WriteByte_eq m c :
  len (buff m) < maxInt ->
  WriteByte m c = Some ({| buff := buff m ++ [c]; pos := len (buff m) + 1 |}, None).
Proof.
  intros H. unfold WriteByte.
  rewrite append_ok by (change (len [c]) with 1; lia).
  unfold set_pos, set_buff. simpl. rewrite len_app. reflexivity.
Qed.

Lemma write_bytes_eq cs : forall m,
  len (buff m) + len cs <= maxInt ->
  write_bytes m cs =
    Some ({| buff := buff m ++ cs;
             pos := match cs with [] => pos m | _ :: _ => len (buff m) + len cs end |},
          None).
Proof.
  induction cs as [| c cs IH]; intros m H; cbn [write_bytes].
  - rewrite app_nil_r. destruct m; reflexivity.
  - assert (Hc : len (c :: cs) = len cs + 1) by (unfold len; simpl length; lia).
    pose proof (len_nonneg cs).
    rewrite WriteByte_eq by lia.
    rewrite IH by (cbn [buff]; rewrite len_app; change (len [c]) with 1; lia).
    cbn [buff pos]. rewrite len_app. change (len [c]) with 1.
    rewrite <- app_assoc. cbn [app].
    assert (Hp : match cs with
                 | [] => len (buff m) + 1
                 | _ :: _ => len (buff m) + 1 + len cs
                 end = len (buff m) + len (c :: cs)).
    { rewrite Hc. destruct cs; [change (len (@nil byte)) with 0 |]; lia. }
    rewrite Hp. reflexivity.
Qed.

Lemma skipn_step {A} (l : list A) k c r : skipn k l = c :: r -> skipn (S k) l = r.
Proof.
  intros E. change (S k) with (1 + k)%nat. rewrite <- skipn_skipn, E. reflexivity.
Qed.

Lemma read_bytes_eq n : forall m,
  well_formed m -> pos m + Z.of_nat n <= len (buff m) ->
  read_bytes m n =
    Some ({| buff := buff m; pos := pos m + Z.of_nat n |},
          firstn n (skipn (Z.to_nat (pos m)) (buff m)), None).
Proof.
  induction n as [| n IH]; intros m [Hb Hc] H; unfold representable, cursor_ok in *.
  - simpl. rewrite Z.add_0_r. destruct m; reflexivity.
  - cbn [read_bytes].
    destruct (nth_error_in_range (buff m) (pos m)) as [c Ec]; [lia |].
    rewrite (ReadByte_some m c) by (assumption || lia).
    rewrite IH; unfold well_formed, representable, cursor_ok; simpl; try lia.
    rewrite <- hd_error_skipn in Ec.
    destruct (skipn (Z.to_nat (pos m)) (buff m)) as [| c' r] eqn:Es; [discriminate |].
    simpl in Ec. inversion Ec. subst c'.
    replace (Z.to_nat (pos m + 1)) with (S (Z.to_nat (pos m))) by lia.
    rewrite (skipn_step _ _ _ _ Es).
    replace (pos m + 1 + Z.of_nat n) with (pos m + Z.pos (Pos.of_succ_nat n)) by lia.
    reflexivity.
Qed.

(** X18: bytes written one by one with [WriteByte] into an empty
    buffer are read back one by one with [ReadByte] after a seek to
    the start, in the order written, and the read after the last one
    fails with [io.EOF]. *)
Theorem WriteByte_ReadByte_round_trip :
  forall cs,
    cs <> [] -> len cs <= maxInt ->
    write_bytes {| buff := []; pos := 0 |} cs = Some ({| buff := cs; pos := len cs |}, None)
    /\ SeekToStart {| buff := cs; pos := len cs |} = ({| buff := cs; pos := 0 |}, 0, None)
    /\ read_bytes {| buff := cs; pos := 0 |} (length cs)
       = Some ({| buff := cs; pos := len cs |}, cs, None)
    /\ ReadByte {| buff := cs; pos := len cs |}
       = Some ({| buff := cs; pos := len cs |}, x00, Some EOF).
Proof.
  intros cs Hn Hs. pose proof (len_nonneg cs) as H0.
  assert (Hpos : 0 < len cs).
  { destruct (Z.eq_dec (len cs) 0) as [E | E]; [| lia].
    apply len_zero_nil in E. contradiction. }
  split; [| split; [| split]].
  - rewrite write_bytes_eq by (simpl; change (len (@nil byte)) with 0; lia).
    simpl. destruct cs; [contradiction | reflexivity].
  - unfold SeekToStart, Seek, seekTarget, posOverflow.
    change (int_of_int64 0) with 0. cbn [Z.eqb SeekStart Z.ltb Z.compare buff].
    destruct (Z.leb_spec (len cs) 0); [lia | reflexivity].
  - rewrite read_bytes_eq; unfold well_formed, representable, cursor_ok; simpl;
      fold (len cs); try lia.
    rewrite firstn_all. reflexivity.
  - apply ReadByte_eof; simpl; lia.
Qed.

Lemma WriteByte_ReadByte_round_trip_witness :
  abcdef <> []
  /\ len abcdef <= maxInt
  /\ read_bytes {| buff := abcdef; pos := 0 |} (length abcdef)
     = Some ({| buff := abcdef; pos := len abcdef |}, abcdef, None).
Proof.
  assert (H1 : abcdef <> []) by discriminate.
  assert (H2 : len abcdef <= maxInt) by by_evaluation.
  refine (conj H1 (conj H2 _)).
  exact (proj1 (proj2 (proj2 (WriteByte_ReadByte_round_trip abcdef H1 H2)))).
Defined.

(** ** The varint codec, for every value *)

Lemma Z_of_byte_range b : 0 <= Z_of_byte b < 256.
Proof.
  unfold Z_of_byte. pose proof (Byte.to_N_bounded b). lia.
Qed.

Lemma Z_of_byte_of_Z z : Z_of_byte (byte_of_Z z) = z mod 256.
Proof.
  pose proof (Z.mod_pos_bound z 256 ltac:(lia)) as Hr.
  unfold Z_of_byte, byte_of_Z.
  destruct (Byte.of_N (Z.to_N (z mod 256))) as [b |] eqn:E.
  - apply Byte.to_of_N in E. rewrite E. lia.
  - apply Byte.of_N_None_iff in E. lia.
Qed.

(** The continuation byte of a group: the high bit set over the low
    seven bits. *)
Lemma continuation_byte y :
  0 <= y < 256 ->
  128 <= Z.lor y 128 < 256 /\ Z.land (Z.lor y 128) 127 = y mod 128.
Proof.
  intros H.
  assert (Hall : forallb
                   (fun k => let y := Z.of_nat k in
                             (128 <=? Z.lor y 128) && (Z.lor y 128 <? 256)
                             && (Z.land (Z.lor y 128) 127 =? y mod 128))
                   (seq 0 256) = true) by (vm_compute; reflexivity).
  rewrite forallb_forall in Hall.
  specialize (Hall (Z.to_nat y)).
  rewrite Z2Nat.id in Hall by lia.
  assert (Hin : In (Z.to_nat y) (seq 0 256)) by (apply in_seq; lia).
  apply Hall in Hin. cbv zeta in Hin.
  apply andb_prop in Hin. destruct Hin as [Hin H3].
  apply andb_prop in Hin. destruct Hin as [H1 H2].
  apply Z.leb_le in H1. apply Z.ltb_lt in H2. apply Z.eqb_eq in H3. lia.
Qed.

Lemma lor_shifted a b s :
  0 <= s -> 0 <= a < 2 ^ s -> Z.lor a (Z.shiftl b s) = a + b * 2 ^ s.
Proof.
  intros Hs Ha.
  assert (Hl : Z.land a (Z.shiftl b s) = 0).
  { apply Z.bits_inj'. intros n Hn. rewrite Z.land_spec, Z.bits_0.
    destruct (Z.lt_ge_cases n s) as [Hlt | Hge].
    - rewrite (Z.shiftl_spec_low b s n Hlt). apply andb_false_r.
    - rewrite <- (Z.mod_small a (2 ^ s)) by lia.
      rewrite Z.mod_pow2_bits_high by lia. reflexivity. }
  pose proof (Z.add_lor_land a (Z.shiftl b s)) as E.
  rewrite Hl, Z.add_0_r in E. rewrite <- Z.shiftl_mul_pow2 by lia. exact E.
Qed.

Lemma uvarint_bytes_len n x :
  (1 <= n)%nat -> 1 <= len (uvarint_bytes n x) <= Z.of_nat n.
Proof.
  revert x. induction n as [| n IH]; intros x Hn; [lia |].
  cbn [uvarint_bytes]. destruct (128 <=? x).
  - destruct n as [| n].
    + simpl. unfold len. simpl. lia.
    + specialize (IH (Z.shiftr x 7) ltac:(lia)).
      unfold len in *. cbn [length]. lia.
  - unfold len. simpl. lia.
Qed.

Lemma store_ok {A} (l : list A) i v :
  0 <= i < len l ->
  exists l', store l i v = Some l' /\ len l' = len l
             /\ firstn (Z.to_nat (i + 1)) l' = firstn (Z.to_nat i) l ++ [v].
Proof.
  intros H. eexists. split; [| split].
  - unfold store. destruct (Z.leb_spec 0 i); destruct (Z.ltb_spec i (len l)); try lia.
    reflexivity.
  - unfold len in *. rewrite length_app. cbn [length].
    rewrite length_firstn, length_skipn. lia.
  - assert (Hf : length (firstn (Z.to_nat i) l) = Z.to_nat i).
    { rewrite length_firstn. unfold len in *. lia. }
    rewrite firstn_app, Hf.
    replace (Z.to_nat (i + 1) - Z.to_nat i)%nat with 1%nat by lia.
    rewrite firstn_all2 by lia. reflexivity.
Qed.

(** [PutUvarint] stores the varint of [x] from index [i] on, when the
    buffer has room for it. *)
Lemma PutUvarint_loop_stores n : forall fuel buf x i,
  (1 <= n <= fuel)%nat -> 0 <= x < 2 ^ (7 * Z.of_nat n) ->
  0 <= i -> i + Z.of_nat n <= len buf ->
  exists buf',
    binary.PutUvarint_loop fuel buf x i = Some (buf', i + len (uvarint_bytes n x))
    /\ len buf' = len buf
    /\ firstn (Z.to_nat (i + len (uvarint_bytes n x))) buf'
       = firstn (Z.to_nat i) buf ++ uvarint_bytes n x.
Proof.
  induction n as [| n IH]; intros fuel buf x i Hn Hx Hi Hl; [lia |].
  destruct fuel as [| fuel]; [lia |].
  cbn [binary.PutUvarint_loop uvarint_bytes].
  destruct (Z.leb_spec 128 x) as [Hbig | Hsmall].
  - destruct (store_ok buf i (byte_of_Z (Z.lor (Z_of_byte (byte_of_Z x)) 128)))
      as (buf1 & Es & Hl1 & Hf1); [lia |].
    rewrite Es.
    assert (Hx' : 0 <= Z.shiftr x 7 < 2 ^ (7 * Z.of_nat n)).
    { rewrite Z.shiftr_div_pow2 by lia. split; [apply Z.div_pos; lia |].
      apply Z.div_lt_upper_bound; [lia |].
      rewrite <- Z.pow_add_r by lia.
      replace (7 + 7 * Z.of_nat n) with (7 * Z.of_nat (S n)) by lia. lia. }
    assert (Hn1 : (1 <= n)%nat).
    { destruct n as [| n]; [| lia]. simpl in Hx'.
      rewrite Z.shiftr_div_pow2 in Hx' by lia.
      assert (1 <= x / 2 ^ 7) by (apply Z.div_le_lower_bound; lia). lia. }
    destruct (IH fuel buf1 (Z.shiftr x 7) (i + 1)) as (buf' & E & Hl' & Hf');
      try lia.
    exists buf'.
    assert (Hlen : len (byte_of_Z (Z.lor (Z_of_byte (byte_of_Z x)) 128)
                          :: uvarint_bytes n (Z.shiftr x 7))
                   = 1 + len (uvarint_bytes n (Z.shiftr x 7))).
    { unfold len. cbn [length]. lia. }
    rewrite Hlen.
    replace (i + (1 + len (uvarint_bytes n (Z.shiftr x 7))))
      with (i + 1 + len (uvarint_bytes n (Z.shiftr x 7))) by lia.
    split; [exact E |]. split; [lia |].
    rewrite Hf', Hf1, <- app_assoc. reflexivity.
  - destruct (store_ok buf i (byte_of_Z x)) as (buf1 & Es & Hl1 & Hf1); [lia |].
    rewrite Es. exists buf1. change (len [byte_of_Z x]) with 1.
    split; [reflexivity |]. split; [exact Hl1 | exact Hf1].
Qed.

Lemma WriteUInt64Var_eq m x :
  0 <= x < 2 ^ 64 -> WriteUInt64Var m x = Write m (uvarint_bytes 10 x).
Proof.
  intros Hx. unfold WriteUInt64Var, binary.PutUvarint.
  assert (Hm : make binary.MaxVarintLen64 = Some (repeat x00 10)) by reflexivity.
  rewrite Hm. clear Hm.
  assert (Hlb : len (repeat x00 10) = 10) by reflexivity.
  assert (Hn10 : (1 <= 10 <= S (length (repeat x00 10)))%nat).
  { rewrite repeat_length. lia. }
  assert (Hx10 : 0 <= x < 2 ^ (7 * Z.of_nat 10)).
  { change (7 * Z.of_nat 10) with 70. lia. }
  assert (Hroom : 0 + Z.of_nat 10 <= len (repeat x00 10)).
  { rewrite Hlb. change (Z.of_nat 10) with 10. lia. }
  destruct (PutUvarint_loop_stores 10 (S (length (repeat x00 10))) (repeat x00 10) x 0
              Hn10 Hx10 (Z.le_refl 0) Hroom)
    as (buf' & E & Hl & Hf).
  rewrite E. clear E.
  pose proof (uvarint_bytes_len 10 x ltac:(lia)) as Hn.
  change (Z.of_nat 10) with 10 in Hn.
  rewrite Z.add_0_l in Hf |- *. rewrite Hlb in Hl.
  rewrite slice_to_ok by lia. rewrite Hf. reflexivity.
Qed.

Lemma lor_wrapped a b s :
  0 <= s -> 0 <= a < 2 ^ s -> 0 <= b * 2 ^ s < 2 ^ 64 ->
  Z.lor a (wrapU64 (Z.shiftl b s)) = a + b * 2 ^ s.
Proof.
  intros Hs Ha Hb. unfold wrapU64.
  rewrite Z.mod_small by (rewrite Z.shiftl_mul_pow2 by lia; lia).
  apply lor_shifted; assumption.
Qed.

Lemma continuation_value x :
  128 <= Z_of_byte (byte_of_Z (Z.lor (Z_of_byte (byte_of_Z x)) 128)) < 256
  /\ Z.land (Z_of_byte (byte_of_Z (Z.lor (Z_of_byte (byte_of_Z x)) 128))) 127
     = x mod 128.
Proof.
  rewrite !Z_of_byte_of_Z.
  pose proof (Z.mod_pos_bound x 256 ltac:(lia)) as Hr.
  destruct (continuation_byte (x mod 256) Hr) as [Hc Hl].
  rewrite (Z.mod_small (Z.lor (x mod 256) 128)) by lia.
  split; [exact Hc |]. rewrite Hl.
  apply Z.mod_mod_divide. exists 2. reflexivity.
Qed.

Lemma pow_7_succ i : 0 <= i -> 2 ^ (7 * (i + 1)) = 128 * 2 ^ (7 * i).
Proof.
  intros H. replace (7 * (i + 1)) with (7 + 7 * i) by lia.
  rewrite Z.pow_add_r by lia. reflexivity.
Qed.

Lemma pow_64_split i : 0 <= i <= 9 -> 2 ^ (7 * i) * 2 ^ (64 - 7 * i) = 2 ^ 64.
Proof.
  intros H. rewrite <- Z.pow_add_r by lia. f_equal. lia.
Qed.

Lemma skipn_cons_nth {A} (l : list A) k c r :
  skipn k l = c :: r -> nth_error l k = Some c /\ (k < length l)%nat.
Proof.
  intros E. assert (H : nth_error l k = Some c).
  { rewrite <- hd_error_skipn, E. reflexivity. }
  split; [exact H |]. apply nth_error_Some. rewrite H. discriminate.
Qed.

(** [ReadUvarint], entered at its turn [i] with the groups read so far
    in [acc], reads the varint of the rest of the value at the cursor
    and returns the whole value. *)
Lemma ReadUvarint_loop_decodes k : forall i acc x (m : ByteBuffer) post,
  i = 10 - Z.of_nat k -> (1 <= k <= 10)%nat ->
  0 <= x < 2 ^ (64 - 7 * i) -> 0 <= acc < 2 ^ (7 * i) ->
  representable m -> 0 <= pos m ->
  skipn (Z.to_nat (pos m)) (buff m) = uvarint_bytes k x ++ post ->
  binary.ReadUvarint_loop k i acc (7 * i) m
  = Some ({| buff := buff m; pos := pos m + len (uvarint_bytes k x) |},
          acc + x * 2 ^ (7 * i), None).
Proof.
  induction k as [| k IH]; intros i acc x m post Hi Hk Hx Hacc Hb Hp Es; [lia |].
  assert (Hi9 : 0 <= i <= 9) by lia.
  assert (HP : 0 < 2 ^ (7 * i)) by (apply Z.pow_pos_nonneg; lia).
  pose proof (pow_64_split i Hi9) as H64.
  unfold representable in Hb.
  cbn [binary.ReadUvarint_loop uvarint_bytes] in *.
  unfold binary.readByte, ByteBuffer_ByteReader.
  destruct (Z.leb_spec 128 x) as [Hbig | Hsmall].
  - (* a continuation byte, then the rest *)
    cbn [app] in Es.
    destruct (skipn_cons_nth _ _ _ _ Es) as [Hnth Hlt].
    rewrite (ReadByte_some m _ Hb) by (unfold len; lia || exact Hnth).
    destruct (continuation_value x) as [Hc Hland].
    set (b0 := byte_of_Z (Z.lor (Z_of_byte (byte_of_Z x)) 128)) in *.
    destruct (Z.ltb_spec (Z_of_byte b0) 128); [lia |].
    rewrite Hland.
    assert (Hi8 : i <= 8).
    { destruct (Z.eq_dec i 9) as [E | Hne]; [| lia].
      rewrite E in Hx. change (2 ^ (64 - 7 * 9)) with 2 in Hx. lia. }
    assert (Hr : 0 <= x mod 128 < 128) by (apply Z.mod_pos_bound; lia).
    assert (Hsmall_shift : 0 <= x mod 128 * 2 ^ (7 * i) < 2 ^ 64).
    { split; [apply Z.mul_nonneg_nonneg; lia |].
      apply Z.lt_le_trans with (128 * 2 ^ (7 * i)).
      - apply Z.mul_lt_mono_pos_r; lia.
      - rewrite <- pow_7_succ by lia. apply Z.pow_le_mono_r; lia. }
    rewrite lor_wrapped by lia.
    assert (Hq : Z.shiftr x 7 = x / 128).
    { rewrite Z.shiftr_div_pow2 by lia. reflexivity. }
    rewrite Hq in *.
    replace (7 * i + 7) with (7 * (i + 1)) by lia.
    assert (Hxdiv : 0 <= x / 128 < 2 ^ (64 - 7 * (i + 1))).
    { split; [apply Z.div_pos; lia |].
      apply Z.div_lt_upper_bound; [lia |].
      replace (128 * 2 ^ (64 - 7 * (i + 1))) with (2 ^ (64 - 7 * i)); [lia |].
      replace (64 - 7 * i) with (7 + (64 - 7 * (i + 1))) by lia.
      rewrite Z.pow_add_r by lia. reflexivity. }
    assert (Hacc' : 0 <= acc + x mod 128 * 2 ^ (7 * i) < 2 ^ (7 * (i + 1))).
    { rewrite pow_7_succ by lia. split; [lia |].
      assert (x mod 128 * 2 ^ (7 * i) <= 127 * 2 ^ (7 * i))
        by (apply Z.mul_le_mono_nonneg_r; lia).
      lia. }
    rewrite (IH (i + 1) _ (x / 128) (set_pos m (pos m + 1)) post);
      try assumption; try lia.
    + cbn [buff pos set_pos].
      assert (Hlen : len (b0 :: uvarint_bytes k (x / 128))
                     = 1 + len (uvarint_bytes k (x / 128))).
      { unfold len. cbn [length]. lia. }
      rewrite Hlen, pow_7_succ by lia.
      pose proof (Z.div_mod x 128 ltac:(lia)) as Hdm.
      set (q := x / 128) in *. set (r := x mod 128) in *.
      replace (acc + r * 2 ^ (7 * i) + q * (128 * 2 ^ (7 * i)))
        with (acc + (128 * q + r) * 2 ^ (7 * i)) by ring.
      rewrite <- Hdm, Z.add_assoc. reflexivity.
    + cbn [buff pos set_pos]. lia.
    + cbn [buff pos set_pos].
      replace (Z.to_nat (pos m + 1)) with (S (Z.to_nat (pos m))) by lia.
      apply (skipn_step _ _ _ _ Es).
  - (* the last byte *)
    cbn [app] in Es.
    destruct (skipn_cons_nth _ _ _ _ Es) as [Hnth Hlt].
    rewrite (ReadByte_some m _ Hb) by (unfold len; lia || exact Hnth).
    rewrite Z_of_byte_of_Z, (Z.mod_small x 256) by lia.
    destruct (Z.ltb_spec x 128); [| lia].
    assert (Hchk : (i =? binary.MaxVarintLen64 - 1) && (1 <? x) = false).
    { destruct (Z.eqb_spec i (binary.MaxVarintLen64 - 1)) as [E | E]; [| reflexivity].
      change (binary.MaxVarintLen64 - 1) with 9 in E. rewrite E in Hx.
      change (2 ^ (64 - 7 * 9)) with 2 in Hx.
      destruct (Z.ltb_spec 1 x); [lia | reflexivity]. }
    rewrite Hchk.
    assert (Hshift : 0 <= x * 2 ^ (7 * i) < 2 ^ 64).
    { split; [apply Z.mul_nonneg_nonneg; lia |].
      rewrite <- H64, (Z.mul_comm (2 ^ (7 * i))).
      apply Z.mul_lt_mono_pos_r; lia. }
    rewrite lor_wrapped by lia.
    change (len [byte_of_Z x]) with 1. reflexivity.
Qed.

(** X19: the varint codec round-trips every 64-bit value: with the
    cursor at the end, [WriteUInt64Var(x)] appends between 1 and 10
    bytes and returns their number; a seek back to where they start
    succeeds, and [ReadUInt64Var] then returns [x] with no error and
    leaves the cursor at the end again. *)
Theorem WriteUInt64Var_ReadUInt64Var_round_trip :
  forall m x,
    representable m -> pos m = len (buff m) ->
    0 <= x < 2 ^ 64 -> len (buff m) + 10 <= maxInt ->
    exists n m1,
      1 <= n <= 10
      /\ WriteUInt64Var m x = Some (m1, n, None)
      /\ buff m1 = buff m ++ uvarint_bytes 10 x
      /\ len (buff m1) = len (buff m) + n
      /\ pos m1 = len (buff m1)
      /\ Seek m1 (len (buff m)) SeekStart
         = ({| buff := buff m1; pos := len (buff m) |}, len (buff m), None)
      /\ ReadUInt64Var {| buff := buff m1; pos := len (buff m) |} = Some (m1, x, None).
Proof.
  intros m x Hb Hp Hx Hs. unfold representable in Hb.
  pose proof (len_nonneg (buff m)) as Hl0.
  pose proof (uvarint_bytes_len 10 x ltac:(lia)) as Hn.
  change (Z.of_nat 10) with 10 in Hn.
  set (enc := uvarint_bytes 10 x) in *.
  exists (len enc), {| buff := buff m ++ enc; pos := len (buff m) + len enc |}.
  split; [exact Hn |].
  split; [rewrite WriteUInt64Var_eq by exact Hx; apply Write_at_end; assumption || lia |].
  cbn [buff pos]. rewrite len_app.
  split; [reflexivity |]. split; [reflexivity |]. split; [reflexivity |].
  split.
  - unfold Seek, seekTarget, posOverflow, int_of_int64, int64_of_int.
    cbn [Z.eqb SeekStart buff]. rewrite !wrap_fits by int_range. rewrite len_app.
    destruct (Z.ltb_spec (len (buff m)) 0); [lia |].
    destruct (Z.leb_spec (len (buff m) + len enc) (len (buff m))); [lia | reflexivity].
  - unfold ReadUInt64Var, binary.ReadUvarint.
    change (Z.to_nat binary.MaxVarintLen64) with 10%nat.
    pose proof (ReadUvarint_loop_decodes 10 0 0 x
                  {| buff := buff m ++ enc; pos := len (buff m) |} []) as H.
    change (7 * 0) with 0 in H. change (64 - 0) with 64 in H.
    change (2 ^ 0) with 1 in H. cbn [buff pos] in H.
    rewrite Z.mul_1_r, Z.add_0_l in H. fold enc in H.
    apply H; try lia.
    + unfold representable. cbn [buff]. rewrite len_app. lia.
    + unfold len. rewrite Nat2Z.id, skipn_app, skipn_all, Nat.sub_diag.
      simpl. rewrite app_nil_r. reflexivity.
Qed.

Lemma WriteUInt64Var_ReadUInt64Var_round_trip_witness :
  representable {| buff := abcdef; pos := 6 |}
  /\ pos {| buff := abcdef; pos := 6 |} = len (buff {| buff := abcdef; pos := 6 |})
  /\ 0 <= 300 < 2 ^ 64
  /\ len (buff {| buff := abcdef; pos := 6 |}) + 10 <= maxInt
  /\ exists n m1,
      1 <= n <= 10
      /\ WriteUInt64Var {| buff := abcdef; pos := 6 |} 300 = Some (m1, n, None)
      /\ buff m1 = buff {| buff := abcdef; pos := 6 |} ++ uvarint_bytes 10 300
      /\ len (buff m1) = len (buff {| buff := abcdef; pos := 6 |}) + n
      /\ pos m1 = len (buff m1)
      /\ Seek m1 (len (buff {| buff := abcdef; pos := 6 |})) SeekStart
         = ({| buff := buff m1; pos := len (buff {| buff := abcdef; pos := 6 |}) |},
            len (buff {| buff := abcdef; pos := 6 |}), None)
      /\ ReadUInt64Var
           {| buff := buff m1; pos := len (buff {| buff := abcdef; pos := 6 |}) |}
         = Some (m1, 300, None).
Proof.
  assert (H1 : representable {| buff := abcdef; pos := 6 |}) by by_evaluation.
  assert (H2 : pos {| buff := abcdef; pos := 6 |}
               = len (buff {| buff := abcdef; pos := 6 |})) by reflexivity.
  assert (H3 : 0 <= 300 < 2 ^ 64) by by_evaluation.
  assert (H4 : len (buff {| buff := abcdef; pos := 6 |}) + 10 <= maxInt) by by_evaluation.
  refine (conj H1 (conj H2 (conj H3 (conj H4 _)))).
  exact (WriteUInt64Var_ReadUInt64Var_round_trip _ 300 H1 H2 H3 H4).
Defined.

Lemma ReadUInt64Var_decodes (m : ByteBuffer) x post :
  representable m -> 0 <= pos m -> 0 <= x < 2 ^ 64 ->
  skipn (Z.to_nat (pos m)) (buff m) = uvarint_bytes 10 x ++ post ->
  ReadUInt64Var m
  = Some ({| buff := buff m; pos := pos m + len (uvarint_bytes 10 x) |}, x, None).
Proof.
  intros Hb Hp Hx Es. unfold ReadUInt64Var, binary.ReadUvarint.
  change (Z.to_nat binary.MaxVarintLen64) with 10%nat.
  pose proof (ReadUvarint_loop_decodes 10 0 0 x m post) as H.
  change (7 * 0) with 0 in H. change (64 - 0) with 64 in H.
  change (2 ^ 0) with 1 in H.
  rewrite Z.mul_1_r, Z.add_0_l in H.
  apply H; try lia; assumption.
Qed.

Lemma ReadUInt64Var_at_end m :
  representable m -> pos m = len (buff m) ->
  ReadUInt64Var m = Some (m, 0, Some EOF).
Proof.
  intros Hb Hp. unfold representable in Hb.
  unfold ReadUInt64Var, binary.ReadUvarint.
  change (Z.to_nat binary.MaxVarintLen64) with 10%nat.
  cbn [binary.ReadUvarint_loop]. unfold binary.readByte, ByteBuffer_ByteReader.
  rewrite ReadByte_eof by lia. reflexivity.
Qed.

Lemma write_all_eq xs : forall m,
  representable m -> pos m = len (buff m) ->
  Forall (fun x => 0 <= x < 2 ^ 64) xs ->
  len (buff m) + 10 * len xs <= maxInt ->
  write_all m xs =
    Some ({| buff := buff m ++ concat (map (uvarint_bytes 10) xs);
             pos := len (buff m) + len (concat (map (uvarint_bytes 10) xs)) |}, None).
Proof.
  induction xs as [| x xs IH]; intros m Hb Hp Hx Hs; cbn [write_all map concat].
  - rewrite app_nil_r. change (len (@nil byte)) with 0. rewrite Z.add_0_r, <- Hp.
    destruct m; reflexivity.
  - inversion Hx as [| ? ? Hx1 Hx2]. subst.
    assert (Hc : len (x :: xs) = 1 + len xs) by (unfold len; cbn [length]; lia).
    pose proof (len_nonneg xs). pose proof (len_nonneg (buff m)).
    pose proof (uvarint_bytes_len 10 x ltac:(lia)) as Hn.
    change (Z.of_nat 10) with 10 in Hn.
    unfold representable in Hb.
    rewrite WriteUInt64Var_eq by exact Hx1.
    rewrite Write_at_end by (assumption || lia).
    rewrite IH; cbn [buff pos]; unfold representable; cbn [buff];
      rewrite ?len_app; try assumption; try lia.
    rewrite <- app_assoc, Z.add_assoc. reflexivity.
Qed.

Lemma skipn_past_prefix {A} (l front rest : list A) k :
  skipn k l = front ++ rest -> skipn (k + length front) l = rest.
Proof.
  intros E. rewrite Nat.add_comm, <- skipn_skipn, E.
  rewrite skipn_app, skipn_all, Nat.sub_diag. reflexivity.
Qed.

Lemma read_all_eq xs : forall (m : ByteBuffer) post,
  representable m -> 0 <= pos m ->
  Forall (fun x => 0 <= x < 2 ^ 64) xs ->
  skipn (Z.to_nat (pos m)) (buff m) = concat (map (uvarint_bytes 10) xs) ++ post ->
  read_all m (length xs) =
    Some ({| buff := buff m;
             pos := pos m + len (concat (map (uvarint_bytes 10) xs)) |}, xs, None).
Proof.
  induction xs as [| x xs IH]; intros m post Hb Hp Hx Es;
    cbn [read_all length map concat] in *.
  - change (len (@nil byte)) with 0. rewrite Z.add_0_r. destruct m; reflexivity.
  - inversion Hx as [| ? ? Hx1 Hx2]. subst.
    rewrite <- app_assoc in Es.
    rewrite (ReadUInt64Var_decodes m x _ Hb Hp Hx1 Es).
    pose proof (len_nonneg (uvarint_bytes 10 x)) as Hn.
    rewrite (IH {| buff := buff m; pos := pos m + len (uvarint_bytes 10 x) |} post);
      cbn [buff pos]; try assumption; try lia.
    + rewrite len_app, Z.add_assoc. reflexivity.
    + replace (Z.to_nat (pos m + len (uvarint_bytes 10 x)))
        with (Z.to_nat (pos m) + length (uvarint_bytes 10 x))%nat
        by (unfold len; lia).
      apply (skipn_past_prefix _ _ _ _ Es).
Qed.

Lemma uvarint_concat_len xs :
  len xs <= len (concat (map (uvarint_bytes 10) xs)) <= 10 * len xs.
Proof.
  induction xs as [| x xs IH]; cbn [map concat].
  - change (len (@nil byte)) with 0. change (len (@nil Z)) with 0. lia.
  - pose proof (uvarint_bytes_len 10 x ltac:(lia)) as Hn.
    change (Z.of_nat 10) with 10 in Hn.
    assert (Hc : len (x :: xs) = 1 + len xs) by (unfold len; cbn [length]; lia).
    rewrite len_app, Hc. lia.
Qed.

(** X20: any sequence of 64-bit values written with [WriteUInt64Var]
    into an empty buffer is read back by [ReadUInt64Var], after a seek
    to the start, value by value in the order written; the read after
    the last value fails with [io.EOF] and leaves the buffer as it
    is. *)
Theorem varint_sequence_round_trip :
  forall xs,
    xs <> [] -> Forall (fun x => 0 <= x < 2 ^ 64) xs -> 10 * len xs <= maxInt ->
    exists bs,
      bs = concat (map (uvarint_bytes 10) xs)
      /\ write_all {| buff := []; pos := 0 |} xs
         = Some ({| buff := bs; pos := len bs |}, None)
      /\ SeekToStart {| buff := bs; pos := len bs |} = ({| buff := bs; pos := 0 |}, 0, None)
      /\ read_all {| buff := bs; pos := 0 |} (length xs)
         = Some ({| buff := bs; pos := len bs |}, xs, None)
      /\ ReadUInt64Var {| buff := bs; pos := len bs |}
         = Some ({| buff := bs; pos := len bs |}, 0, Some EOF).
Proof.
  intros xs Hn Hx Hs.
  exists (concat (map (uvarint_bytes 10) xs)). split; [reflexivity |].
  pose proof (uvarint_concat_len xs) as Hbs.
  assert (Hxs : 1 <= len xs).
  { destruct xs as [| x xs]; [contradiction |]. unfold len. cbn [length]. lia. }
  set (bs := concat (map (uvarint_bytes 10) xs)) in *.
  split; [| split; [| split]].
  - rewrite write_all_eq; cbn [buff pos]; unfold representable; cbn [buff];
      change (len (@nil byte)) with 0; try assumption; try lia; try reflexivity.
  - unfold SeekToStart, Seek, seekTarget, posOverflow.
    change (int_of_int64 0) with 0. cbn [Z.eqb SeekStart Z.ltb Z.compare buff].
    destruct (Z.leb_spec (len bs) 0); [lia | reflexivity].
  - rewrite (read_all_eq xs {| buff := bs; pos := 0 |} []);
      cbn [buff pos]; unfold representable; cbn [buff]; try assumption; try lia.
    + reflexivity.
    + rewrite app_nil_r. reflexivity.
  - apply ReadUInt64Var_at_end; [unfold representable; cbn [buff]; lia | reflexivity].
Qed.

Lemma varint_sequence_round_trip_witness :
  [0; 127; 128; 300; 2 ^ 64 - 1] <> []
  /\ Forall (fun x => 0 <= x < 2 ^ 64) [0; 127; 128; 300; 2 ^ 64 - 1]
  /\ 10 * len [0; 127; 128; 300; 2 ^ 64 - 1] <= maxInt
  /\ exists bs,
      bs = concat (map (uvarint_bytes 10) [0; 127; 128; 300; 2 ^ 64 - 1])
      /\ write_all {| buff := []; pos := 0 |} [0; 127; 128; 300; 2 ^ 64 - 1]
         = Some ({| buff := bs; pos := len bs |}, None)
      /\ SeekToStart {| buff := bs; pos := len bs |} = ({| buff := bs; pos := 0 |}, 0, None)
      /\ read_all {| buff := bs; pos := 0 |} (length [0; 127; 128; 300; 2 ^ 64 - 1])
         = Some ({| buff := bs; pos := len bs |}, [0; 127; 128; 300; 2 ^ 64 - 1], None)
      /\ ReadUInt64Var {| buff := bs; pos := len bs |}
         = Some ({| buff := bs; pos := len bs |}, 0, Some EOF).
Proof.
  assert (H1 : [0; 127; 128; 300; 2 ^ 64 - 1] <> []) by discriminate.
  assert (H2 : Forall (fun x => 0 <= x < 2 ^ 64) [0; 127; 128; 300; 2 ^ 64 - 1]).
  { repeat constructor; discriminate. }
  assert (H3 : 10 * len [0; 127; 128; 300; 2 ^ 64 - 1] <= maxInt) by by_evaluation.
  refine (conj H1 (conj H2 (conj H3 _))).
  exact (varint_sequence_round_trip _ H1 H2 H3).
Defined.

(** ** What reads and writes leave alone *)

Lemma Read_keeps_storage m p m' p' n e :
  Read m p = Some (m', p', n, e) -> buff m' = buff m /\ length p' = length p.
Proof.
  unfold Read, readFromPos.
  destruct (0 <? wrap (len (buff m) - pos m)).
  - destruct (slice_from (buff m) (pos m)); [| discriminate].
    intros E. inversion E. subst. split; [reflexivity | apply copy_length].
  - intros E. inversion E. subst. auto.
Qed.

Lemma ReadByte_keeps_storage m m' c e :
  ReadByte m = Some (m', c, e) -> buff m' = buff m.
Proof.
  intros E. apply ReadByte_through_Read in E. destruct E as (p' & n & e' & E).
  apply Read_keeps_storage in E. apply E.
Qed.

Lemma ReadUvarint_loop_keeps_storage fuel : forall i x s (m m' : ByteBuffer) v e,
  binary.ReadUvarint_loop fuel i x s m = Some (m', v, e) -> buff m' = buff m.
Proof.
  induction fuel as [| fuel IH]; intros i x s m m' v e; cbn [binary.ReadUvarint_loop].
  - intros E. inversion E. reflexivity.
  - unfold binary.readByte, ByteBuffer_ByteReader.
    destruct (ReadByte m) as [[[m1 b] e1] |] eqn:Er; [| discriminate].
    apply ReadByte_keeps_storage in Er.
    destruct e1.
    + intros E. inversion E. subst. exact Er.
    + destruct (Z_of_byte b <? 128).
      * match goal with |- context [if ?c then _ else _] => destruct c end;
          intros E; inversion E; subst; exact Er.
      * intros E. apply IH in E. congruence.
Qed.

(** X21: no seek and no read changes a byte of the storage or its
    length: [Seek], [Read], [ReadByte] and [ReadUInt64Var] return a
    buffer with the storage they found, whatever their outcome, and
    [Read] returns a destination of the length it was given. *)
Theorem seeks_and_reads_keep_storage :
  (forall m offset whence, buff (fst (fst (Seek m offset whence))) = buff m)
  /\ (forall m p m' p' n e,
         Read m p = Some (m', p', n, e) -> buff m' = buff m /\ length p' = length p)
  /\ (forall m m' c e, ReadByte m = Some (m', c, e) -> buff m' = buff m)
  /\ (forall m m' v e, ReadUInt64Var m = Some (m', v, e) -> buff m' = buff m).
Proof.
  split; [| split; [| split]].
  - intros m offset whence. unfold Seek.
    destruct (seekTarget m offset whence) as [t |]; [| reflexivity].
    destruct (t <? 0); [reflexivity |].
    destruct (posOverflow m t); reflexivity.
  - exact Read_keeps_storage.
  - exact ReadByte_keeps_storage.
  - intros m m' v e E. unfold ReadUInt64Var, binary.ReadUvarint in E.
    eapply ReadUvarint_loop_keeps_storage; exact E.
Qed.

Lemma seeks_and_reads_keep_storage_witness :
  Read {| buff := abcdef; pos := 4 |} [x00; x00; x00]
    = Some ({| buff := abcdef; pos := 6 |}, [x65; x66; x00], 2, Some EOF)
  /\ buff {| buff := abcdef; pos := 6 |} = buff {| buff := abcdef; pos := 4 |}
  /\ length [x65; x66; x00] = length [x00; x00; x00].
Proof.
  assert (H : Read {| buff := abcdef; pos := 4 |} [x00; x00; x00]
              = Some ({| buff := abcdef; pos := 6 |}, [x65; x66; x00], 2, Some EOF))
    by reflexivity.
  split; [exact H |].
  exact (proj1 (proj2 seeks_and_reads_keep_storage) _ _ _ _ _ _ H).
Defined.

(** X22: a write never shrinks the storage: after [Write(p)] the size
    is the larger of the old size and [cursor + len(p)], and after a
    [WriteAt(p, off)] inside the storage the larger of the old size
    and [off + len(p)]; both return [len(p)] and no error. *)
Theorem write_size_is_max :
  (forall m p m' n e,
      well_formed m -> len p <= maxInt -> Write m p = Some (m', n, e) ->
      Size m' = Z.max (Size m) (pos m + len p) /\ n = len p /\ e = None)
  /\ (forall m p off m' n e,
         well_formed m -> len p <= maxInt -> 0 <= off < len (buff m) ->
         WriteAt m p off = Some (m', n, e) ->
         Size m' = Z.max (Size m) (off + len p) /\ n = len p /\ e = None).
Proof.
  assert (Hmax : forall storage src ps,
             0 <= ps <= len storage ->
             len storage + spec_appended storage src ps
             = Z.max (len storage) (ps + len src)).
  { intros storage src ps H. unfold spec_appended, spec_overlap. lia. }
  split.
  - intros m p m' n e [Hb Hc] Hp. unfold representable, cursor_ok in *.
    unfold Write. rewrite writeFromPos_eq by lia.
    destruct (Z.leb_spec (pos m + len p) maxInt); [| discriminate].
    intros E. inversion E. subst. clear E. unfold Size. cbn [buff set_pos set_buff].
    rewrite spec_storage_len by lia. rewrite Hmax by lia. auto.
  - intros m p off m' n e [Hb Hc] Hp Ho. unfold representable, cursor_ok in *.
    unfold WriteAt, posOverflow, int_of_int64.
    rewrite (wrap_fits off) by int_range.
    destruct (Z.ltb_spec off 0); [lia |].
    destruct (Z.leb_spec (len (buff m)) off); [lia |].
    rewrite writeFromPos_eq by lia.
    destruct (Z.leb_spec (off + len p) maxInt); [| discriminate].
    intros E. inversion E. subst. clear E. unfold Size. cbn [buff set_pos set_buff].
    rewrite spec_storage_len by lia. rewrite Hmax by lia. auto.
Qed.

Lemma write_size_is_max_witness :
  well_formed {| buff := abcdef; pos := 3 |}
  /\ len abcdef <= maxInt
  /\ Write {| buff := abcdef; pos := 3 |} abcdef
     = Some ({| buff := abcabcdef; pos := 6 |}, 6, None)
  /\ Size {| buff := abcabcdef; pos := 6 |}
     = Z.max (Size {| buff := abcdef; pos := 3 |}) (pos {| buff := abcdef; pos := 3 |} + len abcdef)
  /\ 6 = len abcdef /\ @None error = None.
Proof.
  assert (H1 : well_formed {| buff := abcdef; pos := 3 |}) by by_evaluation.
  assert (H2 : len abcdef <= maxInt) by by_evaluation.
  assert (H3 : Write {| buff := abcdef; pos := 3 |} abcdef
               = Some ({| buff := abcabcdef; pos := 6 |}, 6, None)) by reflexivity.
  refine (conj H1 (conj H2 (conj H3 _))).
  exact (proj1 write_size_is_max _ _ _ _ _ H1 H2 H3).
Defined.

(** X23: [Seek(0, io.SeekCurrent)] reports the cursor only while the
    cursor is inside the storage; with the cursor at the end, where
    every append leaves it, it fails with [ErrSeekOverflow]. *)
Theorem Seek_current_zero_fails_at_end :
  forall m,
    well_formed m ->
    (pos m < len (buff m) -> SeekFromCurrent m 0 = (m, pos m, None))
    /\ (pos m = len (buff m) -> SeekFromCurrent m 0 = (m, -1, Some ErrSeekOverflow)).
Proof.
  intros m [Hb Hc]. unfold representable, cursor_ok in *.
  assert (Et : seekTarget m 0 SeekCurrent = Some (pos m)).
  { change (seekTarget m 0 SeekCurrent) with (Some (wrap (0 + pos m))).
    rewrite Z.add_0_l, wrap_fits by int_range. reflexivity. }
  unfold SeekFromCurrent, Seek, posOverflow, int64_of_int. rewrite Et.
  rewrite wrap_fits by int_range.
  destruct (Z.ltb_spec (pos m) 0); [lia |].
  destruct (Z.leb_spec (len (buff m)) (pos m)).
  - split; [lia | reflexivity].
  - split; [| lia]. intros _. destruct m; reflexivity.
Qed.

Lemma Seek_current_zero_fails_at_end_witness :
  well_formed {| buff := abcdef; pos := 6 |}
  /\ pos {| buff := abcdef; pos := 6 |} = len (buff {| buff := abcdef; pos := 6 |})
  /\ SeekFromCurrent {| buff := abcdef; pos := 6 |} 0
     = ({| buff := abcdef; pos := 6 |}, -1, Some ErrSeekOverflow).
Proof.
  assert (H1 : well_formed {| buff := abcdef; pos := 6 |}) by by_evaluation.
  assert (H2 : pos {| buff := abcdef; pos := 6 |}
               = len (buff {| buff := abcdef; pos := 6 |})) by reflexivity.
  refine (conj H1 (conj H2 _)).
  exact (proj2 (Seek_current_zero_fails_at_end _ H1) H2).
Defined.

(** ** Failures, with and without data *)





